(** * UT-Bot scanner: Heikin-Ashi, trailing stop, crossover signals, ranking

    A shallow embedding of [trading_bot.py] and the properties of its
    signal engine ([calculate_strategy]), of the ranking
    ([get_top_gainers]) and of the scan loop ([run_scanner]).

    Numbers.  The program computes with IEEE doubles.  They are modelled as
    exact rationals extended with the not-a-number value: comparisons with
    [NaN] are false and arithmetic on [NaN] gives [NaN], as in Python;
    rounding, overflow and infinities are not modelled.  Results of
    arithmetic are kept in lowest terms, so that two computed values are
    equal as terms exactly when they are equal as numbers.  The theorems
    on the trailing stop, the signal and the targets use of the arithmetic
    only what rounding preserves (adding a number that is not negative
    does not give less, and the like); where a property needs the
    arithmetic to be exact, the doubles themselves are computed
    ([ratio_is_rounded]). *)

From Stdlib Require Import QArith Qreduction Qfield Lqa.
From Stdlib Require Import PrimFloat.
From stdpp Require Import base option list strings sorting sets.

Local Open Scope list_scope.

(** ** Numbers *)

Module Num.

Inductive num : Type :=
  | NaN
  | Fin (q : Q).

Definition lift2 (f : Q -> Q -> Q) (a b : num) : num :=
  match a, b with
  | Fin x, Fin y => Fin (Qred (f x y))
  | _, _ => NaN
  end.

Definition add : num -> num -> num := lift2 Qplus.
Definition sub : num -> num -> num := lift2 Qminus.
Definition mul : num -> num -> num := lift2 Qmult.

(** Division; a zero divisor gives [NaN] (no infinities in the model). *)
Definition div (a b : num) : num :=
  match a, b with
  | Fin x, Fin y => if Qeq_bool y 0 then NaN else Fin (Qred (x / y))
  | _, _ => NaN
  end.

(** [a < b], [a <= b]: false as soon as one side is [NaN]. *)
Definition ltb (a b : num) : bool :=
  match a, b with
  | Fin x, Fin y => negb (Qle_bool y x)
  | _, _ => false
  end.

Definition leb (a b : num) : bool :=
  match a, b with
  | Fin x, Fin y => Qle_bool x y
  | _, _ => false
  end.

Definition gtb (a b : num) : bool := ltb b a.
Definition geb (a b : num) : bool := leb b a.

Definition is_nan (a : num) : bool :=
  match a with NaN => true | Fin _ => false end.

(** Python's truth value of a float: everything but zero, [NaN] included. *)
Definition truthy (a : num) : bool :=
  match a with
  | NaN => true
  | Fin x => negb (Qeq_bool x 0)
  end.

(** The builtins [max(a, b)] and [min(a, b)]: the first argument is kept
    unless the second one compares strictly beyond it. *)
Definition py_max (a b : num) : num := if gtb b a then b else a.
Definition py_min (a b : num) : num := if ltb b a then b else a.

Definition of_Z (z : Z) : num := Fin (inject_Z z).

End Num.

Import Num.

Declare Scope num_scope.
Delimit Scope num_scope with num.
Bind Scope num_scope with num.
Infix "+" := add : num_scope.
Infix "-" := sub : num_scope.
Infix "*" := mul : num_scope.
Infix "/" := div : num_scope.
Infix "<?" := ltb : num_scope.
Infix "<=?" := leb : num_scope.
Infix ">?" := gtb : num_scope.
Infix ">=?" := geb : num_scope.

(** ** Exceptions *)

Inductive exn : Type :=
  | IndexError
  | ValueError
  | OtherError (what : string).

Inductive result (A : Type) : Type :=
  | Ok (a : A)
  | Raise (e : exn).
Arguments Ok {A} a.
Arguments Raise {A} e.

#[global] Instance result_ret : MRet result := fun _ a => Ok a.
#[global] Instance result_bind : MBind result := fun _ _ f m =>
  match m with
  | Ok a => f a
  | Raise e => Raise e
  end.

Definition is_ok {A} (r : result A) : bool :=
  match r with Ok _ => true | Raise _ => false end.

(** ** Sequences: indexing, slices, loops *)

(** [s[i]] and [s.iloc[i]]: a negative position counts from the end, a
    position outside the sequence raises [IndexError]. *)
Definition getitem {A} (s : list A) (i : Z) : result A :=
  let n := Z.of_nat (length s) in
  let j := if (i <? 0)%Z then (n + i)%Z else i in
  if ((0 <=? j)%Z && (j <? n)%Z)%bool
  then match s !! Z.to_nat j with
       | Some x => Ok x
       | None => Raise IndexError
       end
  else Raise IndexError.

(** [s[i] = v]; only used with a position from [range]. *)
Definition setitem {A} (s : list A) (i : nat) (v : A) : result (list A) :=
  if (i <? length s)%nat then Ok (<[i:=v]> s) else Raise IndexError.

(** [s.iloc[-w:]]: the last [w] entries, all of them when there are fewer. *)
Definition tail_slice {A} (w : nat) (s : list A) : list A :=
  drop (length s - w) s.

(** [range(a, b)] *)
Definition range (a b : nat) : list nat := seq a (b - a).

(** [for i in xs: st = body i st], stopping at the first exception. *)
Fixpoint for_each {S} (xs : list nat) (body : nat -> S -> result S) (st : S)
  : result S :=
  match xs with
  | [] => Ok st
  | i :: xs' =>
      match body i st with
      | Ok st' => for_each xs' body st'
      | Raise e => Raise e
      end
  end.

(** Assigning a plain list to a column: the lengths must agree. *)
Definition assign_list {A} (n : nat) (values : list A) : result (list A) :=
  if (length values =? n)%nat then Ok values else Raise ValueError.

(** Assigning a Series to a column: aligned on the row index, rows the
    Series does not have are [NaN]. *)
Definition assign_series (n : nat) (values : list num) : list num :=
  take n values ++ replicate (n - length values) NaN.

(** [Series.min()] and [Series.max()]: [NaN] entries are skipped; the
    result is [NaN] when nothing is left. *)
Definition series_min (s : list num) : num :=
  foldr (fun x acc =>
           match x, acc with
           | NaN, _ => acc
           | _, NaN => x
           | _, _ => if (x <? acc)%num then x else acc
           end) NaN s.

Definition series_max (s : list num) : num :=
  foldr (fun x acc =>
           match x, acc with
           | NaN, _ => acc
           | _, NaN => x
           | _, _ => if (x >? acc)%num then x else acc
           end) NaN s.

(** ** Configuration *)

Definition LIMIT : nat := 100.
Definition TOP_N : nat := 25.
Definition SL_LOOKBACK : nat := 10.
Definition RISK_REWARD : num := of_Z 2.
Definition KEY_VALUE : num := of_Z 2.
Definition ATR_PERIOD : nat := 10.

(** ** Candles *)

Record candle : Type := Candle {
  timestamp : Z;
  open : num;
  high : num;
  low : num;
  close : num;
  volume : num
}.

(** A frame is the list of its rows, oldest first; [col f df] is [df[f]]. *)
Definition col (f : candle -> num) (df : list candle) : list num := map f df.

(** ** The strategy *)

Inductive side : Type := LONG | SHORT.

(** Step 1 of [calculate_strategy]: the columns [HA_Close] and [HA_Open]. *)
Definition ha_close_row (c : candle) : num :=
  ((open c + high c + low c + close c) / of_Z 4)%num.

Definition ha_open_body (HA_Close : list num) (i : nat) (ha_open : list num)
  : result (list num) :=
  a ← getitem ha_open (Z.of_nat i - 1);
  c ← getitem HA_Close (Z.of_nat i - 1);
  mret (ha_open ++ [((a + c) / of_Z 2)%num]).

Definition heikin_ashi (df : list candle) : result (list num * list num) :=
  let HA_Close := map ha_close_row df in
  o0 ← getitem (col open df) 0;
  c0 ← getitem (col close df) 0;
  ha_open ← for_each (range 1 (length df)) (ha_open_body HA_Close)
                     [((o0 + c0) / of_Z 2)%num];
  HA_Open ← assign_list (length df) ha_open;
  mret (HA_Close, HA_Open).

(** Step 3: the trailing-stop loop. *)
Definition trailing_stop_body (HA_Close nLoss : list num) (i : nat)
    (trailing_stop : list num) : result (list num) :=
  prev_stop ← getitem trailing_stop (Z.of_nat i - 1);
  price ← getitem HA_Close (Z.of_nat i);
  prev_price ← getitem HA_Close (Z.of_nat i - 1);
  n_loss ← getitem nLoss (Z.of_nat i);
  if ((price >? prev_stop) && (prev_price >? prev_stop))%num then
    setitem trailing_stop i (py_max prev_stop (price - n_loss))
  else if ((price <? prev_stop) && (prev_price <? prev_stop))%num then
    setitem trailing_stop i (py_min prev_stop (price + n_loss))
  else if (price >? prev_stop)%num then
    setitem trailing_stop i (price - n_loss)%num
  else
    setitem trailing_stop i (price + n_loss)%num.

Definition trailing_stop_loop (n : nat) (HA_Close nLoss : list num)
  : result (list num) :=
  for_each (range 1 n) (trailing_stop_body HA_Close nLoss)
           (replicate n (of_Z 0)).

(** [ta.atr(high, low, close, length)] is the library's: the strategy is
    parametric in it.  The call returns a Series, [NaN] where the average
    is not defined yet, or it raises.  A call that returns [None] leaves a
    column without a value: if pandas multiplies it to a column of [NaN]
    on line 74 the call is the one that returns the empty Series here, and
    if line 74 raises it is the one that raises. *)
Definition atr_fn : Type :=
  list num -> list num -> list num -> nat -> result (list num).

(** Line 73: the call on the columns of the frame. *)
Definition call_atr (ta_atr : atr_fn) (df : list candle) : result (list num) :=
  ta_atr (col high df) (col low df) (col close df) ATR_PERIOD.

(** Lines 73 and 74: the column [nLoss] once the call has returned [atr]. *)
Definition loss_column (df : list candle) (atr : list num) : list num :=
  map (mul KEY_VALUE) (assign_series (length df) atr).

Section Strategy.
Variable ta_atr : atr_fn.

(** Steps 1 to 3: the columns [HA_Close], [nLoss] and [TrailingStop]. *)
Definition indicator_columns (df : list candle)
  : result (list num * list num * list num) :=
  '(HA_Close, HA_Open) ← heikin_ashi df;
  atr ← call_atr ta_atr df;
  let nLoss := loss_column df atr in
  trailing_stop ← trailing_stop_loop (length df) HA_Close nLoss;
  TrailingStop ← assign_list (length df) trailing_stop;
  mret (HA_Close, nLoss, TrailingStop).

(** [calculate_strategy(df)].  [last_row[c]] is read as [df[c].iloc[-1]]
    and [prev_row[c]] as [df[c].iloc[-2]]. *)
Definition calculate_strategy (df : list candle)
  : result (option side * num * num * num) :=
  '(HA_Close, nLoss, TrailingStop) ← indicator_columns df;
  last_close ← getitem (col close df) (-1);
  last_HA_Close ← getitem HA_Close (-1);
  last_TrailingStop ← getitem TrailingStop (-1);
  prev_HA_Close ← getitem HA_Close (-2);
  prev_TrailingStop ← getitem TrailingStop (-2);
  let entry_price := last_close in
  if ((last_HA_Close >? last_TrailingStop)
      && (prev_HA_Close <=? prev_TrailingStop))%num then
    let recent_lows := tail_slice SL_LOOKBACK (col low df) in
    let stop_loss := series_min recent_lows in
    let risk := (entry_price - stop_loss)%num in
    let take_profit := (entry_price + risk * RISK_REWARD)%num in
    mret (Some LONG, entry_price, stop_loss, take_profit)
  else if ((last_HA_Close <? last_TrailingStop)
           && (prev_HA_Close >=? prev_TrailingStop))%num then
    let recent_highs := tail_slice SL_LOOKBACK (col high df) in
    let stop_loss := series_max recent_highs in
    let risk := (stop_loss - entry_price)%num in
    let take_profit := (entry_price - risk * RISK_REWARD)%num in
    mret (Some SHORT, entry_price, stop_loss, take_profit)
  else
    mret (None, entry_price, of_Z 0, of_Z 0).
End Strategy.

(** ** Ranking *)

Record ticker : Type := Ticker { percentage : option num }.

(** A dict is the list of its items in insertion order. *)
Definition dict_get {V} (d : list (string * V)) (k : string) : result V :=
  match list_find (fun kv => String.eqb (fst kv) k) d with
  | Some (_, (_, v)) => Ok v
  | None => Raise (OtherError "KeyError")
  end.

(** [needle in hay] on strings. *)
Fixpoint contains (needle hay : string) : bool :=
  String.prefix needle hay
  || match hay with
     | EmptyString => false
     | String _ hay' => contains needle hay'
     end.

Definition usdt_pair (symbol : string) : bool :=
  contains "/USDT" symbol
  && negb (contains "UP/" symbol)
  && negb (contains "DOWN/" symbol).

(** The sort key: [percentage if percentage else -100]. *)
Definition key_of (t : ticker) : num :=
  match percentage t with
  | Some p => if truthy p then p else of_Z (-100)
  | None => of_Z (-100)
  end.

(** [sorted(xs, key=..., reverse=True)]: the keys are computed first, the
    sort is stable and compares keys with [<] only.  On keys that are
    numbers this is the one list a stable descending sort can return.  On
    keys that are [NaN] the list CPython returns depends on how its sort
    merges, which is not modelled: the theorems on the order assume that
    the keys are numbers, and the one list with a [NaN] key that is sorted
    below, [beside_nan], comes out as CPython returns it. *)
Fixpoint insert_desc {A} (x : num * A) (l : list (num * A)) : list (num * A) :=
  match l with
  | [] => [x]
  | y :: l' =>
      if (fst x <? fst y)%num then y :: insert_desc x l' else x :: y :: l'
  end.

Definition sort_desc {A} (l : list (num * A)) : list (num * A) :=
  foldr insert_desc [] l.

Fixpoint map_result {A B} (f : A -> result B) (l : list A) : result (list B) :=
  match l with
  | [] => Ok []
  | x :: l' => y ← f x; ys ← map_result f l'; mret (y :: ys)
  end.

Definition sorted_by_key_desc {A} (key : A -> result num) (xs : list A)
  : result (list A) :=
  keyed ← map_result (fun x => k ← key x; mret (k, x)) xs;
  mret (map snd (sort_desc keyed)).

(** The list comprehension of [get_top_gainers]: USDT pairs, leveraged
    UP/DOWN tokens left out. *)
Definition valid_tickers (tickers : list (string * ticker)) : list string :=
  map fst (filter (fun kv => usdt_pair (fst kv) = true) tickers).

(** The body of the [try] in [get_top_gainers], given the ticker dict. *)
Definition rank_tickers (tickers : list (string * ticker)) : result (list string) :=
  sorted_tickers ←
    sorted_by_key_desc (fun x => t ← dict_get tickers x; mret (key_of t))
                       (valid_tickers tickers);
  mret (take TOP_N sorted_tickers).

(** ** The scan loop *)

Record message : Type := Message {
  m_symbol : string;
  m_signal : side;
  m_entry : num;
  m_stop_loss : num;
  m_take_profit : num
}.

(** What a scan does to the outside, in order. *)
Inductive event : Type :=
  | PrintStart
  | PrintGainersError (e : exn)
  | PrintScanning (top_coins : list string)
  | FetchOhlcv (symbol : string)
  | PrintSignalFound (symbol : string)
  | SendMessage (msg : message)
  | PrintTelegramError (e : exn)
  | Sleep
  | PrintAnalyzeError (symbol : string) (e : exn)
  | PrintComplete.

(** Statements that may raise and that append to the log of events. *)
Definition io (A : Type) : Type := list event -> result A * list event.

#[global] Instance io_ret : MRet io := fun _ a log => (Ok a, log).
#[global] Instance io_bind : MBind io := fun _ _ f m log =>
  match m log with
  | (Ok a, log') => f a log'
  | (Raise e, log') => (Raise e, log')
  end.

Definition emit (ev : event) : io unit := fun log => (Ok tt, log ++ [ev]).
Definition lift_result {A} (r : result A) : io A := fun log => (r, log).

(** [try: body  except Exception as e: handler e] *)
Definition try_except {A} (body : io A) (handler : exn -> io A) : io A :=
  fun log =>
    match body log with
    | (Ok a, log') => (Ok a, log')
    | (Raise e, log') => handler e log'
    end.

(** [for x in xs: body x] *)
Fixpoint for_in {A} (xs : list A) (body : A -> io unit) : io unit :=
  match xs with
  | [] => mret tt
  | x :: xs' => _ ← body x; for_in xs' body
  end.

Section Scanner.
Variable ta_atr : atr_fn.
(** The exchange and the bot. *)
Variable fetch_tickers : result (list (string * ticker)).
Variable fetch_ohlcv : string -> result (list candle).
Variable bot_send_message : message -> result unit.

Definition send_telegram_message (msg : message) : io unit :=
  try_except
    (_ ← emit (SendMessage msg); lift_result (bot_send_message msg))
    (fun e => emit (PrintTelegramError e)).

Definition get_top_gainers : io (list string) :=
  try_except
    (tickers ← lift_result fetch_tickers; lift_result (rank_tickers tickers))
    (fun e => _ ← emit (PrintGainersError e); mret []).

(** The body of the [try] in the loop of [run_scanner]. *)
Definition analyze (symbol : string) : io unit :=
  _ ← emit (FetchOhlcv symbol);
  df ← lift_result (fetch_ohlcv symbol);
  if (length df <? LIMIT)%nat then mret tt
  else
    '(signal, entry, sl, tp) ← lift_result (calculate_strategy ta_atr df);
    _ ← match signal with
        | Some s =>
            _ ← emit (PrintSignalFound symbol);
            send_telegram_message (Message symbol s entry sl tp)
        | None => mret tt
        end;
    emit Sleep.

Definition scan_symbols (top_coins : list string) : io unit :=
  for_in top_coins (fun symbol =>
    try_except (analyze symbol)
               (fun e => emit (PrintAnalyzeError symbol e))).

Definition run_scanner : io unit :=
  _ ← emit PrintStart;
  top_coins ← get_top_gainers;
  _ ← emit (PrintScanning top_coins);
  _ ← scan_symbols top_coins;
  emit PrintComplete.
End Scanner.

(** ** A concrete average true range

    [ta.atr] belongs to the pandas_ta library, which is not part of the
    repository.  The theorems below hold for every [atr_fn]; the instance
    [wilder_atr] serves to run the strategy on concrete frames. *)

Definition num_abs (a : num) : num :=
  if (a <? of_Z 0)%num then (of_Z 0 - a)%num else a.

Definition true_range (prev_close : option num) (h l : num) : num :=
  match prev_close with
  | None => (h - l)%num
  | Some pc => py_max (py_max (h - l) (num_abs (h - pc))) (num_abs (l - pc))
  end.

Fixpoint true_ranges (prev_close : option num) (hs ls cs : list num) : list num :=
  match hs, ls, cs with
  | h :: hs', l :: ls', c :: cs' =>
      true_range prev_close h l :: true_ranges (Some c) hs' ls' cs'
  | _, _, _ => []
  end.

Definition mean (l : list num) : num :=
  (foldl add (of_Z 0) l / of_Z (Z.of_nat (length l)))%num.

Fixpoint wilder_smooth (p : nat) (prev : num) (trs : list num) : list num :=
  match trs with
  | [] => []
  | t :: trs' =>
      let a := ((prev * of_Z (Z.of_nat p - 1) + t) / of_Z (Z.of_nat p))%num in
      a :: wilder_smooth p a trs'
  end.

(** Modelled from the spec: the average true range of the library, as
    section 4.3 describes it: Wilder's smoothed average over [p] periods of
    the true range (the largest of [high - low], [|high - prevClose|],
    [|low - prevClose|]), undefined before index [p - 1]. *)
Definition wilder_series (hs ls cs : list num) (p : nat) : list num :=
  let trs := true_ranges None hs ls cs in
  if (length trs <? p)%nat then replicate (length trs) NaN
  else
    let first := mean (take p trs) in
    replicate (p - 1) NaN ++ first :: wilder_smooth p first (drop p trs).

(** The call that returns that series and never raises. *)
Definition wilder_atr : atr_fn := fun hs ls cs p => Ok (wilder_series hs ls cs p).

(** ** The trailing-stop transition as the specification words it

    Section 4.4: given the previous stop, the current and the previous
    Heikin-Ashi close and the current loss threshold, the four branches in
    their priority order. *)
Definition next_stop (prevStop price prevPrice loss : num) : num :=
  if ((price >? prevStop) && (prevPrice >? prevStop))%num then
    py_max prevStop (price - loss)
  else if ((price <? prevStop) && (prevPrice <? prevStop))%num then
    py_min prevStop (price + loss)
  else if (price >? prevStop)%num then (price - loss)%num
  else (price + loss)%num.

(** ** Extremes of a window *)

(** [m] is the least entry of [w] that is a number; [NaN] when there is none. *)
Definition least_of (w : list num) (m : num) : Prop :=
  (∀ x, x ∈ w → is_nan x = false → (m <=? x)%num = true)
  ∧ (m ∈ w ∨ (m = NaN ∧ ∀ x, x ∈ w → x = NaN)).

Definition greatest_of (w : list num) (m : num) : Prop :=
  (∀ x, x ∈ w → is_nan x = false → (m >=? x)%num = true)
  ∧ (m ∈ w ∨ (m = NaN ∧ ∀ x, x ∈ w → x = NaN)).

(** ** Frames to run the program on *)

Definition candle_of (o h l c : Z) : candle :=
  Candle 0 (of_Z o) (of_Z h) (of_Z l) (of_Z c) (of_Z 1).

Definition quiet_candle : candle := candle_of 100 101 99 100.

(** [n] quiet candles, a drop, and a last candle that closes the
    Heikin-Ashi average back above the stop. *)
Definition rally_frame (n : nat) : list candle :=
  replicate n quiet_candle ++ [candle_of 100 100 88 90; candle_of 95 120 90 110].

(** The same, but the last candle closes on its low, the lowest of the
    window. *)
Definition spike_frame (n : nat) : list candle :=
  replicate n quiet_candle ++ [candle_of 100 100 88 90; candle_of 120 120 85 85].

(** ** What a scan owes each candidate

    Section 4.7 of the specification, symbol by symbol: the series is
    fetched; a failure is logged; a short series is skipped; otherwise the
    strategy runs, and a signal is dispatched. *)
Inductive outcome : Type :=
  | Skipped
  | Failed (e : exn)
  | NoSignal
  | Alerted (msg : message).

Section ScanSpec.
Variable ta_atr : atr_fn.
Variable fetch_ohlcv : string -> result (list candle).
Variable bot_send_message : message -> result unit.

Definition outcome_of (symbol : string) : outcome :=
  match fetch_ohlcv symbol with
  | Raise e => Failed e
  | Ok df =>
      if (length df <? LIMIT)%nat then Skipped
      else match calculate_strategy ta_atr df with
           | Raise e => Failed e
           | Ok (None, _, _, _) => NoSignal
           | Ok (Some s, entry, sl, tp) => Alerted (Message symbol s entry sl tp)
           end
  end.

Definition events_of (symbol : string) : list event :=
  FetchOhlcv symbol ::
  match outcome_of symbol with
  | Skipped => []
  | Failed e => [PrintAnalyzeError symbol e]
  | NoSignal => [Sleep]
  | Alerted msg =>
      [PrintSignalFound symbol; SendMessage msg]
      ++ match bot_send_message msg with
         | Ok _ => []
         | Raise e => [PrintTelegramError e]
         end
      ++ [Sleep]
  end.
End ScanSpec.

(** ** The order of the ranking *)

(** The order the sort leaves two keys in: the first is not below the
    second. *)
Definition not_below {A} (p q : num * A) : Prop := (fst p <? fst q)%num = false.

(** The key [rank_tickers] sorts a symbol by. *)
Definition rank_key (tickers : list (string * ticker)) (x : string) : num :=
  match dict_get tickers x with
  | Ok t => key_of t
  | Raise _ => NaN
  end.

(** ** Worlds to run the scan in *)

Definition zero_candle : candle := candle_of 0 0 0 0.

(** A frame that ends inside the warm-up of the average true range and
    opens with a candle priced at zero. *)
Definition warmup_frame : list candle := zero_candle :: replicate 8 quiet_candle.

Definition one_symbol_exchange : string -> result (list candle) :=
  fun _ => Ok (spike_frame 98).

Definition obliging_bot : message -> result unit := fun _ => Ok tt.

Definition flat_and_falling : list (string * ticker) :=
  [("A/USDT"%string, Ticker (Some (of_Z 0)));
   ("B/USDT"%string, Ticker (Some (of_Z (-5))))].

(** Every reported change is a number: the exchange reports a number or
    nothing. *)
Definition changes_are_numbers (tickers : list (string * ticker)) : bool :=
  forallb (fun kv => match percentage (snd kv) with
                     | Some p => negb (is_nan p)
                     | None => true
                     end) tickers.

(** ** More vocabulary for the properties *)

(** The four prices of a candle. *)
Definition ohlc (c : candle) : num * num * num * num :=
  (open c, high c, low c, close c).

(** Two keys that are the same number. *)
Definition same_number (a b : num) : bool :=
  match a, b with
  | Fin x, Fin y => Qeq_bool x y
  | _, _ => false
  end.

(** The whole ranking, before it is cut to [TOP_N]. *)
Definition full_ranking (tickers : list (string * ticker)) : list string :=
  map snd (sort_desc (map (fun x => (rank_key tickers x, x))
                          (valid_tickers tickers))).

(** Kinds of events. *)
Definition is_fetch (ev : event) : bool :=
  match ev with FetchOhlcv _ => true | _ => false end.
Definition is_send (ev : event) : bool :=
  match ev with SendMessage _ => true | _ => false end.
Definition is_sleep (ev : event) : bool :=
  match ev with Sleep => true | _ => false end.

Definition how_many {A} (p : A -> bool) (l : list A) : nat :=
  length (List.filter p l).

Definition broken_exchange : result (list (string * ticker)) :=
  Raise (OtherError "NetworkError").

(** An average true range that is 2 on every row. *)
Definition steady_atr : atr_fn := fun hs _ _ _ => Ok (map (fun _ => of_Z 2) hs).

(** Twenty-six symbols, [A/USDT] to [Z/USDT], the n-th with a change of n. *)
Definition alphabet : list (string * ticker) :=
  map (fun n => (String (Ascii.ascii_of_nat (65 + n)) "/USDT",
                 Ticker (Some (of_Z (Z.of_nat n)))))
      (seq 0 26).

Definition deaf_exchange : string -> result (list candle) :=
  fun _ => Raise (OtherError "Timeout").

(** ** More worlds *)

(** Ten quiet candles and one that falls through the stop. *)
Definition slump_frame (n : nat) : list candle :=
  replicate n quiet_candle ++ [candle_of 100 100 80 80].

(** A flat symbol, one whose change is [NaN], and a rising one. *)
Definition beside_nan : list (string * ticker) :=
  [("A/USDT"%string, Ticker (Some (of_Z 0)));
   ("N/USDT"%string, Ticker (Some NaN));
   ("B/USDT"%string, Ticker (Some (of_Z 5)))].

(** A flat symbol and one without a change, with a rising one between
    them. *)
Definition flat_and_missing : list (string * ticker) :=
  [("A/USDT"%string, Ticker (Some (of_Z 0)));
   ("B/USDT"%string, Ticker (Some (of_Z 5)));
   ("C/USDT"%string, Ticker None)].

(** A candle without a single price, and a full frame of them. *)
Definition blank_candle : candle := Candle 0 NaN NaN NaN NaN NaN.
Definition blank_frame : list candle := replicate 100 blank_candle.

(** An average true range that raises on a frame without a single high. *)
Definition picky_atr : atr_fn := fun hs ls cs p =>
  if forallb is_nan hs then Raise (OtherError "TypeError")
  else wilder_atr hs ls cs p.

Definition two_symbol_exchange : string -> result (list candle) :=
  fun symbol =>
    if String.eqb symbol "N/USDT" then Ok blank_frame else Ok (spike_frame 98).

(** The symbols whose candles a log asks for, in the order of the log. *)
Definition fetched (log : list event) : list string :=
  omap (fun ev => match ev with FetchOhlcv symbol => Some symbol | _ => None end)
       log.

(** The series of a symbol arrived with at least [LIMIT] candles and the
    average true range came back for it. *)
Definition gets_analysed (ta_atr : atr_fn)
    (fetch_ohlcv : string -> result (list candle)) (symbol : string) : bool :=
  match fetch_ohlcv symbol with
  | Ok df => negb (length df <? LIMIT)%nat && is_ok (call_atr ta_atr df)
  | Raise _ => false
  end.

(** Prices in thousandths: ten quiet candles, a drop to 0.01 and a last
    candle that closes at 0.07, back above the stop. *)
Definition mill_candle (o h l c : Z) : candle :=
  Candle 0 (of_Z o / of_Z 1000)%num (of_Z h / of_Z 1000)%num
         (of_Z l / of_Z 1000)%num (of_Z c / of_Z 1000)%num (of_Z 1).

Definition penny_frame : list candle :=
  replicate 10 (mill_candle 60 61 59 60)
  ++ [mill_candle 60 60 10 20; mill_candle 60 80 60 70].

(** ** The targets in doubles

    Lines 114, 115 and 125, 126 on IEEE doubles, and the quotient of
    reward and risk they give. *)
Definition double_take_profit_long (entry_price stop_loss : float) : float :=
  let risk := (entry_price - stop_loss)%float in
  (entry_price + risk * 2)%float.

Definition double_reward_to_risk_long (entry_price stop_loss : float) : float :=
  ((double_take_profit_long entry_price stop_loss - entry_price)
   / (entry_price - stop_loss))%float.

(** * Properties *)

(** ** Numbers *)

Lemma ltb_leb_false (a b : num) : (a <? b)%num = true → (b <=? a)%num = false.
Proof.
  destruct a as [|x], b as [|y]; simpl; try discriminate.
  by intros ->%negb_true_iff.
Qed.

Lemma ltb_asym (a b : num) : (a <? b)%num = true → (b <? a)%num = false.
Proof.
  destruct a as [|x], b as [|y]; simpl; try discriminate.
  intros H%negb_true_iff. apply negb_false_iff, Qle_bool_iff.
  apply Qlt_le_weak, Qnot_le_lt. intros Hle%Qle_bool_iff. congruence.
Qed.

Lemma ltb_nan_r (a : num) : (a <? NaN)%num = false.
Proof. by destruct a. Qed.

Lemma leb_nan_r (a : num) : (a <=? NaN)%num = false.
Proof. by destruct a. Qed.

Lemma add_nan_r (a : num) : (a + NaN)%num = NaN.
Proof. by destruct a. Qed.

Lemma sub_nan_r (a : num) : (a - NaN)%num = NaN.
Proof. by destruct a. Qed.

Lemma py_max_nan_r (a : num) : py_max a NaN = a.
Proof. by destruct a. Qed.

Lemma py_min_nan_r (a : num) : py_min a NaN = a.
Proof. by destruct a. Qed.

Lemma Qred_eq (x y : Q) : (x == y)%Q → Fin (Qred x) = Fin (Qred y).
Proof. intros H. f_equal. by apply Qred_complete. Qed.

Lemma ltb_Qlt (x y : Q) : (Fin x <? Fin y)%num = true ↔ (x < y)%Q.
Proof.
  simpl. rewrite negb_true_iff. split.
  - intros H. apply Qnot_le_lt. intros Hle%Qle_bool_iff. congruence.
  - intros H. destruct (Qle_bool y x) eqn:E; [|done].
    apply Qle_bool_iff in E. exfalso. by apply (Qlt_not_le x y).
Qed.

Lemma leb_Qle (x y : Q) : (Fin x <=? Fin y)%num = true ↔ (x <= y)%Q.
Proof. apply Qle_bool_iff. Qed.

Lemma target_not_above_entry (e s : num) :
  (s >=? e)%num = true → (e + (e - s) * RISK_REWARD <=? e)%num = true.
Proof.
  destruct e as [|e], s as [|s]; try discriminate.
  unfold geb. rewrite leb_Qle. intros H. unfold RISK_REWARD, of_Z. simpl.
  apply Qle_bool_iff. rewrite !Qred_correct.
  change (inject_Z 2) with 2%Q. lra.
Qed.

Lemma target_not_below_entry (e s : num) :
  (s <=? e)%num = true → (e - (s - e) * RISK_REWARD >=? e)%num = true.
Proof.
  destruct e as [|e], s as [|s]; try discriminate.
  rewrite leb_Qle. intros H. unfold geb, RISK_REWARD, of_Z. simpl.
  apply Qle_bool_iff. rewrite !Qred_correct.
  change (inject_Z 2) with 2%Q. lra.
Qed.

Lemma leb_refl (a : num) : is_nan a = false → (a <=? a)%num = true.
Proof. destruct a as [|x]; [done|]. intros _. apply Qle_bool_iff, Qle_refl. Qed.

Lemma leb_trans (a b c : num) :
  (a <=? b)%num = true → (b <=? c)%num = true → (a <=? c)%num = true.
Proof.
  destruct a as [|x], b as [|y], c as [|z]; try discriminate.
  rewrite !leb_Qle. apply Qle_trans.
Qed.

Lemma ltb_leb (a b : num) : (a <? b)%num = true → (a <=? b)%num = true.
Proof.
  destruct a as [|x], b as [|y]; try discriminate.
  rewrite ltb_Qlt, leb_Qle. apply Qlt_le_weak.
Qed.

Lemma ltb_false_leb (a b : num) :
  is_nan a = false → is_nan b = false → (a <? b)%num = false → (b <=? a)%num = true.
Proof.
  destruct a as [|x], b as [|y]; try discriminate. intros _ _. simpl.
  by intros H%negb_false_iff.
Qed.

Lemma series_min_least (w : list num) : least_of w (series_min w).
Proof.
  induction w as [|a w [IH1 IH2]].
  - split; [by intros x ?%elem_of_nil | right; split; [done | by intros x ?%elem_of_nil]].
  - change (series_min (a :: w)) with
      (match a, series_min w with
       | NaN, _ => series_min w
       | _, NaN => a
       | _, _ => if (a <? series_min w)%num then a else series_min w
       end).
    destruct a as [|x].
    { split.
      - intros y [->|Hy]%elem_of_cons Hn; [done | by apply IH1].
      - destruct IH2 as [?|[-> Hall]]; [left; by right|].
        right. split; [done|]. intros y [->|Hy]%elem_of_cons; auto. }
    destruct (series_min w) as [|m] eqn:Em.
    { split.
      - intros y [->|Hy]%elem_of_cons Hn; [by apply leb_refl|].
        destruct IH2 as [Hin|[_ Hall]].
        + by specialize (IH1 y Hy Hn).
        + rewrite (Hall y Hy) in Hn. done.
      - left. by left. }
    destruct (Fin x <? Fin m)%num eqn:E.
    + split; [|left; by left].
      intros y [->|Hy]%elem_of_cons Hn; [by apply leb_refl|].
      eapply leb_trans; [by apply ltb_leb | by apply IH1].
    + split.
      * intros y [->|Hy]%elem_of_cons Hn; [by apply ltb_false_leb | by apply IH1].
      * destruct IH2 as [?|[? _]]; [left; by right | done].
Qed.

Lemma series_max_greatest (w : list num) : greatest_of w (series_max w).
Proof.
  induction w as [|a w [IH1 IH2]].
  - split; [by intros x ?%elem_of_nil | right; split; [done | by intros x ?%elem_of_nil]].
  - change (series_max (a :: w)) with
      (match a, series_max w with
       | NaN, _ => series_max w
       | _, NaN => a
       | _, _ => if (a >? series_max w)%num then a else series_max w
       end).
    destruct a as [|x].
    { split.
      - intros y [->|Hy]%elem_of_cons Hn; [done | by apply IH1].
      - destruct IH2 as [?|[-> Hall]]; [left; by right|].
        right. split; [done|]. intros y [->|Hy]%elem_of_cons; auto. }
    destruct (series_max w) as [|m] eqn:Em.
    { split.
      - intros y [->|Hy]%elem_of_cons Hn; [by apply leb_refl|].
        destruct IH2 as [Hin|[_ Hall]].
        + specialize (IH1 y Hy Hn). by destruct y.
        + rewrite (Hall y Hy) in Hn. done.
      - left. by left. }
    unfold geb in *. destruct (Fin x >? Fin m)%num eqn:E; unfold gtb in E.
    + split; [|left; by left].
      intros y [->|Hy]%elem_of_cons Hn; [by apply leb_refl|].
      eapply leb_trans; [by apply IH1 | by apply ltb_leb].
    + split.
      * intros y [->|Hy]%elem_of_cons Hn; [by apply ltb_false_leb | by apply IH1].
      * destruct IH2 as [?|[? _]]; [left; by right | done].
Qed.

(** ** Indexing and the exception monad *)

Lemma getitem_nat {A} (s : list A) (i : nat) (x : A) :
  s !! i = Some x → getitem s (Z.of_nat i) = Ok x.
Proof.
  intros Hx. pose proof (lookup_lt_Some _ _ _ Hx) as Hlt.
  unfold getitem.
  destruct (Z.ltb_spec (Z.of_nat i) 0) as [?|_]; [lia|].
  destruct (Z.leb_spec 0 (Z.of_nat i)) as [_|?]; [|lia].
  destruct (Z.ltb_spec (Z.of_nat i) (Z.of_nat (length s))) as [_|?]; [|lia].
  simpl. rewrite Nat2Z.id, Hx. reflexivity.
Qed.

Lemma getitem_pred {A} (s : list A) (i : nat) (x : A) :
  s !! i = Some x → getitem s (Z.of_nat (S i) - 1) = Ok x.
Proof.
  intros Hx. replace (Z.of_nat (S i) - 1)%Z with (Z.of_nat i) by lia.
  by apply getitem_nat.
Qed.

Lemma getitem_from_end {A} (s : list A) (k : nat) (x : A) :
  (1 <= k)%nat → (k <= length s)%nat → s !! (length s - k)%nat = Some x →
  getitem s (- Z.of_nat k) = Ok x.
Proof.
  intros Hk Hle Hx. unfold getitem.
  destruct (Z.ltb_spec (- Z.of_nat k) 0) as [_|?]; [|lia].
  destruct (Z.leb_spec 0 (Z.of_nat (length s) + - Z.of_nat k)) as [_|?]; [|lia].
  destruct (Z.ltb_spec (Z.of_nat (length s) + - Z.of_nat k) (Z.of_nat (length s)))
    as [_|?]; [|lia].
  simpl.
  replace (Z.to_nat (Z.of_nat (length s) + - Z.of_nat k)) with (length s - k)%nat by lia.
  rewrite Hx. reflexivity.
Qed.

Lemma getitem_m1 {A} (s : list A) (x : A) :
  (1 <= length s)%nat → s !! (length s - 1)%nat = Some x → getitem s (-1) = Ok x.
Proof. intros. by apply (getitem_from_end s 1 x). Qed.

Lemma getitem_m2 {A} (s : list A) (x : A) :
  (2 <= length s)%nat → s !! (length s - 2)%nat = Some x → getitem s (-2) = Ok x.
Proof. intros. by apply (getitem_from_end s 2 x); [lia|..]. Qed.

Lemma getitem_Ok_inv {A} (s : list A) (i : Z) (x : A) :
  getitem s i = Ok x → (0 < length s)%nat.
Proof.
  unfold getitem. intros H.
  destruct (_ && _)%bool eqn:E; [|discriminate].
  apply andb_true_iff in E as [E1 E2].
  apply Z.leb_le in E1. apply Z.ltb_lt in E2.
  destruct (i <? 0)%Z; lia.
Qed.

Lemma bind_Ok {A B} (a : A) (f : A → result B) : (Ok a ≫= f) = f a.
Proof. reflexivity. Qed.

Lemma bind_Raise {A B} (e : exn) (f : A → result B) : (Raise e ≫= f) = Raise e.
Proof. reflexivity. Qed.

Lemma assign_list_Ok {A} (n : nat) (l : list A) :
  length l = n → assign_list n l = Ok l.
Proof. intros H. unfold assign_list. by rewrite (proj2 (Nat.eqb_eq _ _) H). Qed.

Lemma ha_open_body_Ok (HA_Close ha_open : list num) (i : nat) (o c : num) :
  ha_open !! i = Some o → HA_Close !! i = Some c →
  ha_open_body HA_Close (S i) ha_open
  = Ok (ha_open ++ [((o + c) / of_Z 2)%num]).
Proof.
  intros Ho Hc. unfold ha_open_body.
  rewrite (getitem_pred _ _ _ Ho), (getitem_pred _ _ _ Hc). reflexivity.
Qed.

Lemma ha_open_loop (HA_Close : list num) (k : nat) :
  ∀ (a : nat) (acc : list num),
    length acc = S a → (S a + k <= length HA_Close)%nat →
    ∃ acc',
      for_each (seq (S a) k) (ha_open_body HA_Close) acc = Ok acc'
      ∧ length acc' = (S a + k)%nat
      ∧ (∀ j, (j <= a)%nat → acc' !! j = acc !! j)
      ∧ (∀ j o c, (a <= j)%nat → (S j < S a + k)%nat →
           acc' !! j = Some o → HA_Close !! j = Some c →
           acc' !! S j = Some ((o + c) / of_Z 2)%num).
Proof.
  induction k as [|k IH]; intros a acc Hlen Hle.
  - exists acc. simpl. split_and!; auto; [lia | intros; lia].
  - destruct (lookup_lt_is_Some_2 acc a) as [o Ho]; [lia|].
    destruct (lookup_lt_is_Some_2 HA_Close a) as [c Hc]; [lia|].
    simpl. rewrite (ha_open_body_Ok _ _ _ _ _ Ho Hc).
    destruct (IH (S a) (acc ++ [((o + c) / of_Z 2)%num])) as (acc' & Hrun & Hl & Hold & Hrec).
    { rewrite length_app. simpl. lia. }
    { lia. }
    exists acc'. split_and!; [exact Hrun | lia | |].
    + intros j Hj. rewrite Hold by lia. apply lookup_app_l. lia.
    + intros j o' c' Haj Hj Ho' Hc'.
      destruct (decide (j = a)) as [->|Hne].
      * rewrite Hold by lia.
        rewrite Hold, lookup_app_l in Ho' by lia.
        rewrite lookup_app_r by lia. rewrite Hlen, Nat.sub_diag. simpl.
        congruence.
      * apply Hrec; auto; lia.
Qed.

Lemma heikin_ashi_columns (df : list candle) :
  (1 <= length df)%nat →
  ∃ HA_Open,
    heikin_ashi df = Ok (map ha_close_row df, HA_Open)
    ∧ length HA_Open = length df
    ∧ (∀ c, df !! 0%nat = Some c →
         HA_Open !! 0%nat = Some ((open c + close c) / of_Z 2)%num)
    ∧ (∀ i o c, (S i < length df)%nat →
         HA_Open !! i = Some o → map ha_close_row df !! i = Some c →
         HA_Open !! S i = Some ((o + c) / of_Z 2)%num).
Proof.
  intros Hlen. destruct df as [|c0 df]; [simpl in Hlen; lia|].
  unfold heikin_ashi.
  set (HA := map ha_close_row (c0 :: df)).
  assert (HlenHA : length HA = S (length df)) by (unfold HA; by rewrite length_map).
  change (getitem (col open (c0 :: df)) 0) with (Ok (A:=num) (open c0)).
  change (getitem (col close (c0 :: df)) 0) with (Ok (A:=num) (close c0)).
  simpl length. unfold range.
  destruct (ha_open_loop HA (S (length df) - 1) 0 [((open c0 + close c0) / of_Z 2)%num])
    as (acc' & Hrun & Hl & Hold & Hrec); [reflexivity | lia |].
  rewrite !bind_Ok, Hrun, bind_Ok.
  rewrite assign_list_Ok, bind_Ok by lia.
  exists acc'. split_and!; [reflexivity | lia | |].
  - intros c [= <-]. rewrite Hold by lia. reflexivity.
  - intros i o c Hi Ho Hc. apply (Hrec i o c); auto; lia.
Qed.

Lemma setitem_Ok {A} (s : list A) (i : nat) (v : A) :
  (i < length s)%nat → setitem s i v = Ok (<[i:=v]> s).
Proof. intros H. unfold setitem. by rewrite (proj2 (Nat.ltb_lt _ _) H). Qed.

Lemma trailing_stop_body_Ok (HA_Close nLoss ts : list num) (i : nat)
    (ps price pp loss : num) :
  ts !! i = Some ps → HA_Close !! S i = Some price →
  HA_Close !! i = Some pp → nLoss !! S i = Some loss →
  (S i < length ts)%nat →
  trailing_stop_body HA_Close nLoss (S i) ts
  = Ok (<[S i := next_stop ps price pp loss]> ts).
Proof.
  intros Hps Hprice Hpp Hloss Hlt. unfold trailing_stop_body, next_stop.
  rewrite (getitem_pred _ _ _ Hps), bind_Ok.
  rewrite (getitem_nat _ _ _ Hprice), bind_Ok.
  rewrite (getitem_pred _ _ _ Hpp), bind_Ok.
  rewrite (getitem_nat _ _ _ Hloss), bind_Ok.
  repeat case_match; by apply setitem_Ok.
Qed.

Lemma trailing_stop_steps (HA_Close nLoss : list num) (n k : nat) :
  ∀ (a : nat) (ts : list num),
    length ts = n → length HA_Close = n → length nLoss = n →
    (S a + k <= n)%nat →
    ∃ ts',
      for_each (seq (S a) k) (trailing_stop_body HA_Close nLoss) ts = Ok ts'
      ∧ length ts' = n
      ∧ (∀ j, (j <= a)%nat ∨ (S a + k <= j)%nat → ts' !! j = ts !! j)
      ∧ (∀ j ps price pp loss, (a <= j)%nat → (S j < S a + k)%nat →
           ts' !! j = Some ps → HA_Close !! S j = Some price →
           HA_Close !! j = Some pp → nLoss !! S j = Some loss →
           ts' !! S j = Some (next_stop ps price pp loss)).
Proof.
  induction k as [|k IH]; intros a ts Hts HHA HnL Hle.
  - exists ts. simpl. split_and!; auto. intros; lia.
  - destruct (lookup_lt_is_Some_2 ts a) as [ps Hps]; [lia|].
    destruct (lookup_lt_is_Some_2 HA_Close (S a)) as [price Hprice]; [lia|].
    destruct (lookup_lt_is_Some_2 HA_Close a) as [pp Hpp]; [lia|].
    destruct (lookup_lt_is_Some_2 nLoss (S a)) as [loss Hloss]; [lia|].
    simpl.
    rewrite (trailing_stop_body_Ok _ _ _ _ _ _ _ _ Hps Hprice Hpp Hloss) by lia.
    destruct (IH (S a) (<[S a := next_stop ps price pp loss]> ts))
      as (ts' & Hrun & Hl & Hold & Hrec); auto.
    { by rewrite length_insert. }
    { lia. }
    exists ts'. split_and!; [exact Hrun | exact Hl | |].
    + intros j Hj. rewrite Hold by lia.
      apply list_lookup_insert_ne. lia.
    + intros j ps' price' pp' loss' Haj Hj Hps' Hprice' Hpp' Hloss'.
      destruct (decide (j = a)) as [->|Hne].
      * rewrite Hold by lia.
        rewrite Hold, list_lookup_insert_ne in Hps' by lia.
        rewrite list_lookup_insert_eq by lia. congruence.
      * apply Hrec; auto; lia.
Qed.

Lemma trailing_stop_loop_spec (HA_Close nLoss : list num) (n : nat) :
  length HA_Close = n → length nLoss = n →
  ∃ ts,
    trailing_stop_loop n HA_Close nLoss = Ok ts
    ∧ length ts = n
    ∧ ((1 <= n)%nat → ts !! 0%nat = Some (of_Z 0))
    ∧ (∀ j ps price pp loss,
         ts !! j = Some ps → HA_Close !! S j = Some price →
         HA_Close !! j = Some pp → nLoss !! S j = Some loss →
         ts !! S j = Some (next_stop ps price pp loss)).
Proof.
  intros HHA HnL. unfold trailing_stop_loop, range.
  destruct (decide (n = 0%nat)) as [->|Hn].
  - exists []. simpl. split_and!; auto; [lia|]. intros j ? ? ? ? Hj. 
    by rewrite lookup_nil in Hj.
  - destruct (trailing_stop_steps HA_Close nLoss n (n - 1) 0
                (replicate n (of_Z 0)))
      as (ts & Hrun & Hl & Hold & Hrec); auto.
    { by rewrite length_replicate. }
    { lia. }
    exists ts. split_and!; auto.
    + intros _. rewrite Hold by lia. apply lookup_replicate_2. lia.
    + intros j ps price pp loss Hps Hprice Hpp Hloss.
      apply (Hrec j ps price pp loss); auto; [lia|].
      apply lookup_lt_Some in Hprice. lia.
Qed.

Lemma length_assign_series (n : nat) (values : list num) :
  length (assign_series n values) = n.
Proof.
  unfold assign_series. rewrite length_app, length_take, length_replicate. lia.
Qed.

Section StrategyFacts.
Variable ta_atr : atr_fn.

Lemma indicator_columns_spec (df : list candle) (atr : list num) :
  (1 <= length df)%nat →
  call_atr ta_atr df = Ok atr →
  ∃ nLoss TS,
    indicator_columns ta_atr df = Ok (map ha_close_row df, nLoss, TS)
    ∧ nLoss = loss_column df atr
    ∧ length nLoss = length df
    ∧ length TS = length df
    ∧ TS !! 0%nat = Some (of_Z 0)
    ∧ (∀ j ps price pp loss,
         TS !! j = Some ps → map ha_close_row df !! S j = Some price →
         map ha_close_row df !! j = Some pp → nLoss !! S j = Some loss →
         TS !! S j = Some (next_stop ps price pp loss)).
Proof.
  intros Hlen Hatr. unfold indicator_columns.
  destruct (heikin_ashi_columns df Hlen) as (HA_Open & -> & _).
  rewrite bind_Ok. cbv beta iota zeta. rewrite Hatr, bind_Ok. cbv zeta.
  set (nLoss := loss_column df atr).
  assert (HnL : length nLoss = length df).
  { unfold nLoss, loss_column. by rewrite length_map, length_assign_series. }
  destruct (trailing_stop_loop_spec (map ha_close_row df) nLoss (length df))
    as (ts & -> & Hl & H0 & Hrec); [by rewrite length_map | exact HnL |].
  rewrite bind_Ok, assign_list_Ok, bind_Ok by exact Hl.
  exists nLoss, ts. split_and!; auto.
Qed.

Lemma indicator_columns_Ok_inv (df : list candle)
    (cols : list num * list num * list num) :
  indicator_columns ta_atr df = Ok cols →
  (1 <= length df)%nat ∧ ∃ atr, call_atr ta_atr df = Ok atr.
Proof.
  intros Hrun.
  assert (Hlen : (1 <= length df)%nat).
  { destruct df; [discriminate | simpl; lia]. }
  split; [exact Hlen|]. unfold indicator_columns in Hrun.
  destruct (heikin_ashi_columns df Hlen) as (HA_Open & Hha & _).
  rewrite Hha, bind_Ok in Hrun. cbv beta iota zeta in Hrun.
  destruct (call_atr ta_atr df) as [atr|e]; [eauto | discriminate].
Qed.

Lemma indicator_columns_Raise (df : list candle) (e : exn) :
  (1 <= length df)%nat → call_atr ta_atr df = Raise e →
  indicator_columns ta_atr df = Raise e.
Proof.
  intros Hlen Hatr. unfold indicator_columns.
  destruct (heikin_ashi_columns df Hlen) as (HA_Open & -> & _).
  rewrite bind_Ok. cbv beta iota zeta. by rewrite Hatr.
Qed.

Lemma indicator_columns_loop (df : list candle) (haClose nLoss TS : list num) :
  indicator_columns ta_atr df = Ok (haClose, nLoss, TS) →
  trailing_stop_loop (length df) haClose nLoss = Ok TS.
Proof.
  intros Hrun. destruct (indicator_columns_Ok_inv df _ Hrun) as (Hlen & atr & Hatr).
  unfold indicator_columns in Hrun.
  destruct (heikin_ashi_columns df Hlen) as (HA_Open & Hha & _).
  rewrite Hha, bind_Ok in Hrun. cbv beta iota zeta in Hrun.
  rewrite Hatr, bind_Ok in Hrun. cbv zeta in Hrun.
  destruct (trailing_stop_loop _ _ _) as [ts|e'] eqn:Hloop; [|discriminate].
  rewrite bind_Ok in Hrun. unfold assign_list in Hrun.
  destruct (length ts =? length df)%nat; [|discriminate].
  rewrite bind_Ok in Hrun. by injection Hrun as <- <- <-.
Qed.

Lemma calculate_strategy_spec (df : list candle) (atr : list num) :
  (2 <= length df)%nat →
  call_atr ta_atr df = Ok atr →
  ∃ nLoss TS h1 t1 h0 t0 c1,
    indicator_columns ta_atr df = Ok (map ha_close_row df, nLoss, TS)
    ∧ df !! (length df - 1)%nat = Some c1
    ∧ map ha_close_row df !! (length df - 1)%nat = Some h1
    ∧ TS !! (length df - 1)%nat = Some t1
    ∧ map ha_close_row df !! (length df - 2)%nat = Some h0
    ∧ TS !! (length df - 2)%nat = Some t0
    ∧ calculate_strategy ta_atr df
      = Ok (if ((h1 >? t1) && (h0 <=? t0))%num then
              let sl := series_min (tail_slice SL_LOOKBACK (col low df)) in
              (Some LONG, close c1, sl,
               (close c1 + (close c1 - sl) * RISK_REWARD)%num)
            else if ((h1 <? t1) && (h0 >=? t0))%num then
              let sl := series_max (tail_slice SL_LOOKBACK (col high df)) in
              (Some SHORT, close c1, sl,
               (close c1 - (sl - close c1) * RISK_REWARD)%num)
            else (None, close c1, of_Z 0, of_Z 0)).
Proof.
  intros Hlen Hatr.
  destruct (indicator_columns_spec df atr) as (nLoss & TS & Hcols & _ & _ & HTS & _);
    [lia|exact Hatr|].
  destruct (lookup_lt_is_Some_2 df (length df - 1)) as [c1 Hc1]; [lia|].
  destruct (lookup_lt_is_Some_2 TS (length df - 1)) as [t1 Ht1]; [lia|].
  destruct (lookup_lt_is_Some_2 TS (length df - 2)) as [t0 Ht0]; [lia|].
  destruct (lookup_lt_is_Some_2 (map ha_close_row df) (length df - 1))
    as [h1 Hh1]; [rewrite length_map; lia|].
  destruct (lookup_lt_is_Some_2 (map ha_close_row df) (length df - 2))
    as [h0 Hh0]; [rewrite length_map; lia|].
  exists nLoss, TS, h1, t1, h0, t0, c1. split_and!; auto.
  unfold calculate_strategy. rewrite Hcols, bind_Ok. cbv beta iota.
  rewrite (getitem_m1 (col close df) (close c1)), bind_Ok;
    [| unfold col; rewrite length_map; lia
     | unfold col; by rewrite length_map, list_lookup_fmap, Hc1 ].
  rewrite (getitem_m1 (map ha_close_row df) h1), bind_Ok;
    [| rewrite length_map; lia | by rewrite length_map ].
  rewrite (getitem_m1 TS t1), bind_Ok; [| lia | by rewrite HTS ].
  rewrite (getitem_m2 (map ha_close_row df) h0), bind_Ok;
    [| rewrite length_map; lia | by rewrite length_map ].
  rewrite (getitem_m2 TS t0), bind_Ok; [| lia | by rewrite HTS ].
  cbv zeta. repeat case_match; reflexivity.
Qed.
End StrategyFacts.

Lemma tail_slice_map {A B} (f : A → B) (w : nat) (s : list A) :
  tail_slice w (map f s) = map f (tail_slice w s).
Proof. unfold tail_slice. by rewrite length_map, fmap_drop. Qed.

Lemma length_tail_slice {A} (w : nat) (s : list A) :
  length (tail_slice w s) = Nat.min w (length s).
Proof. unfold tail_slice. rewrite length_drop. lia. Qed.

Section StrategyInversion.
Variable ta_atr : atr_fn.

Lemma calculate_strategy_Ok_length (df : list candle) r :
  calculate_strategy ta_atr df = Ok r → (2 <= length df)%nat.
Proof.
  destruct df as [|c [|c' df]]; [discriminate | | simpl; lia].
  intros H. exfalso. revert H. unfold calculate_strategy, indicator_columns.
  change (heikin_ashi [c]) with
    (Ok ([ha_close_row c], [((open c + close c) / of_Z 2)%num])).
  rewrite bind_Ok. cbv beta iota zeta.
  destruct (call_atr ta_atr [c]) as [atr|e]; [|discriminate].
  rewrite bind_Ok. cbv zeta.
  change (trailing_stop_loop (length [c]) [ha_close_row c]) with
    (fun _ : list num => Ok (A:=list num) [of_Z 0]).
  discriminate.
Qed.

Lemma calculate_strategy_Ok_atr (df : list candle) r :
  calculate_strategy ta_atr df = Ok r → ∃ atr, call_atr ta_atr df = Ok atr.
Proof.
  intros H. unfold calculate_strategy in H.
  destruct (indicator_columns ta_atr df) as [cols|e] eqn:Hcols; [|discriminate].
  by apply (indicator_columns_Ok_inv ta_atr df cols).
Qed.

Lemma calculate_strategy_Raise (df : list candle) (e : exn) :
  (1 <= length df)%nat → call_atr ta_atr df = Raise e →
  calculate_strategy ta_atr df = Raise e.
Proof.
  intros Hlen Hatr. unfold calculate_strategy.
  by rewrite (indicator_columns_Raise ta_atr df e Hlen Hatr).
Qed.
End StrategyInversion.

(** ** The Heikin-Ashi transform *)

(** C5: on a frame of at least one candle the transform returns the two
    columns [HA_Close] and [HA_Open], as long as the frame; [HA_Close] is
    the average of open, high, low and close of the same row, [HA_Open]
    starts at the average of the first open and close, and every later
    [HA_Open] is the average of the previous [HA_Open] and the previous
    [HA_Close]. *)
Theorem heikin_ashi_recurrence (df : list candle) :
  (1 <= length df)%nat →
  ∃ HA_Close HA_Open,
    heikin_ashi df = Ok (HA_Close, HA_Open)
    ∧ length HA_Close = length df
    ∧ length HA_Open = length df
    ∧ (∀ i c, df !! i = Some c →
         HA_Close !! i
         = Some ((open c + high c + low c + close c) / of_Z 4)%num)
    ∧ (∀ c, df !! 0%nat = Some c →
         HA_Open !! 0%nat = Some ((open c + close c) / of_Z 2)%num)
    ∧ (∀ i o c, (1 <= i)%nat → (i < length df)%nat →
         HA_Open !! (i - 1)%nat = Some o → HA_Close !! (i - 1)%nat = Some c →
         HA_Open !! i = Some ((o + c) / of_Z 2)%num).
Proof.
  intros Hlen.
  destruct (heikin_ashi_columns df Hlen) as (HA_Open & Hrun & Hl & H0 & Hrec).
  exists (map ha_close_row df), HA_Open. split_and!; auto.
  - by rewrite length_map.
  - intros i c Hc. by rewrite list_lookup_fmap, Hc.
  - intros i o c Hi Hlt Ho Hc. destruct i as [|i]; [lia|].
    replace (S i - 1)%nat with i in * by lia. by apply (Hrec i o c).
Qed.

Lemma heikin_ashi_recurrence_witness :
  (1 <= length (rally_frame 10))%nat
  ∧ ∃ HA_Close HA_Open,
      heikin_ashi (rally_frame 10) = Ok (HA_Close, HA_Open)
      ∧ length HA_Close = length (rally_frame 10).
Proof.
  split; [simpl; lia|].
  destruct (heikin_ashi_recurrence (rally_frame 10)) as (hc & ho & H1 & H2 & _);
    [simpl; lia|].
  exists hc, ho. by split.
Defined.

Section StrategyClaims.
Variable ta_atr : atr_fn.

(** C1: with [haClose] the Heikin-Ashi closes of the frame and [nLoss]
    [KEY_VALUE] times the series the average true range returned, the
    column [TrailingStop] starts at 0.0, and at every later index it is
    obtained from the previous stop, the current and the previous
    [haClose] and the current [nLoss] by the four branches, tested in the
    order: both above the stop, both below, price above, otherwise. *)
Theorem trailing_stop_recurrence (df : list candle) (atr : list num) :
  (1 <= length df)%nat →
  call_atr ta_atr df = Ok atr →
  ∃ haClose nLoss trailingStop,
    indicator_columns ta_atr df = Ok (haClose, nLoss, trailingStop)
    ∧ haClose = map ha_close_row df
    ∧ nLoss = map (mul KEY_VALUE) (assign_series (length df) atr)
    ∧ trailing_stop_loop (length df) haClose nLoss = Ok trailingStop
    ∧ length haClose = length df
    ∧ length nLoss = length df
    ∧ length trailingStop = length df
    ∧ trailingStop !! 0%nat = Some (of_Z 0)
    ∧ ∀ i price prevPrice prevStop loss,
        (1 <= i)%nat →
        haClose !! i = Some price →
        haClose !! (i - 1)%nat = Some prevPrice →
        trailingStop !! (i - 1)%nat = Some prevStop →
        nLoss !! i = Some loss →
        trailingStop !! i
        = Some (if ((price >? prevStop) && (prevPrice >? prevStop))%num then
                  py_max prevStop (price - loss)
                else if ((price <? prevStop) && (prevPrice <? prevStop))%num then
                  py_min prevStop (price + loss)
                else if (price >? prevStop)%num then (price - loss)%num
                else (price + loss)%num).
Proof.
  intros Hlen Hatr.
  destruct (indicator_columns_spec ta_atr df atr Hlen Hatr)
    as (nLoss & TS & Hrun & HnLeq & HnL & HTS & H0 & Hrec).
  exists (map ha_close_row df), nLoss, TS. split_and!; auto.
  - by apply (indicator_columns_loop ta_atr df).
  - by rewrite length_map.
  - intros i price pp ps loss Hi Hprice Hpp Hps Hloss.
    destruct i as [|i]; [lia|].
    replace (S i - 1)%nat with i in * by lia.
    exact (Hrec i ps price pp loss Hps Hprice Hpp Hloss).
Qed.

(** C2: on a frame of at least two candles on which the average true
    range returns, [calculate_strategy] returns.  With [haClose] the
    Heikin-Ashi closes of the frame and [trailingStop] the column the
    trailing-stop loop computes from them, its signal is LONG exactly when
    the last [haClose] is above the last stop and the one before is at or
    below its stop, SHORT exactly when the last is below and the one
    before at or above, and none exactly when neither holds.  One signal
    at most, from the last two rows only. *)
Theorem signal_iff_crossover (df : list candle) (atr : list num) :
  (2 <= length df)%nat →
  call_atr ta_atr df = Ok atr →
  ∃ haClose nLoss trailingStop hn tn hp tp' signal entry sl tp,
    indicator_columns ta_atr df = Ok (haClose, nLoss, trailingStop)
    ∧ haClose = map ha_close_row df
    ∧ nLoss = map (mul KEY_VALUE) (assign_series (length df) atr)
    ∧ trailing_stop_loop (length df) haClose nLoss = Ok trailingStop
    ∧ haClose !! (length df - 1)%nat = Some hn
    ∧ trailingStop !! (length df - 1)%nat = Some tn
    ∧ haClose !! (length df - 2)%nat = Some hp
    ∧ trailingStop !! (length df - 2)%nat = Some tp'
    ∧ calculate_strategy ta_atr df = Ok (signal, entry, sl, tp)
    ∧ (signal = Some LONG
       ↔ (hn >? tn)%num = true ∧ (hp <=? tp')%num = true)
    ∧ (signal = Some SHORT
       ↔ (hn <? tn)%num = true ∧ (hp >=? tp')%num = true)
    ∧ (signal = None
       ↔ ¬ ((hn >? tn)%num = true ∧ (hp <=? tp')%num = true)
         ∧ ¬ ((hn <? tn)%num = true ∧ (hp >=? tp')%num = true)).
Proof.
  intros Hlen Hatr.
  destruct (calculate_strategy_spec ta_atr df atr Hlen Hatr)
    as (nLoss & TS & h1 & t1 & h0 & t0 & c1
        & Hcols & Hc1 & Hh1 & Ht1 & Hh0 & Ht0 & Hrun).
  pose proof (indicator_columns_loop ta_atr df _ _ _ Hcols) as Hloop.
  assert (HnLeq : nLoss = map (mul KEY_VALUE) (assign_series (length df) atr)).
  { destruct (indicator_columns_spec ta_atr df atr) as (n' & t' & Hc' & -> & _);
      [lia | done |]. rewrite Hcols in Hc'. by injection Hc'. }
  destruct ((h1 >? t1) && (h0 <=? t0))%num eqn:EL.
  - apply andb_true_iff in EL as [E1 E2].
    eexists _, _, _, h1, t1, h0, t0, _, _, _, _.
    split_and!; try eassumption; try reflexivity.
    + done.
    + split; [discriminate|]. intros [E3 _].
      unfold gtb in E1. apply ltb_asym in E1. congruence.
    + split; [discriminate|]. intros [HL _]. by destruct HL.
  - destruct ((h1 <? t1) && (h0 >=? t0))%num eqn:ES.
    + apply andb_true_iff in ES as [E1 E2].
      eexists _, _, _, h1, t1, h0, t0, _, _, _, _.
      split_and!; try eassumption; try reflexivity.
      * split; [discriminate|]. intros [E3 E4].
        rewrite E3, E4 in EL. discriminate.
      * done.
      * split; [discriminate|]. intros [_ HS]. by destruct HS.
    + eexists _, _, _, h1, t1, h0, t0, _, _, _, _.
      split_and!; try eassumption; try reflexivity.
      * split; [discriminate|]. intros [E3 E4].
        rewrite E3, E4 in EL. discriminate.
      * split; [discriminate|]. intros [E3 E4].
        rewrite E3, E4 in ES. discriminate.
      * split; [|done]. intros _. split; intros [E3 E4].
        -- rewrite E3, E4 in EL. discriminate.
        -- rewrite E3, E4 in ES. discriminate.
Qed.

(** C10: on a frame of at least two candles without a crossover at the
    last candle, [calculate_strategy] returns [(None, entry, 0.0, 0.0)]
    where [entry] is the raw close of the last candle. *)
Theorem no_crossover_result (df : list candle) (atr : list num) :
  (2 <= length df)%nat →
  call_atr ta_atr df = Ok atr →
  ∃ haClose nLoss trailingStop hn tn hp tp' last_candle,
    indicator_columns ta_atr df = Ok (haClose, nLoss, trailingStop)
    ∧ haClose = map ha_close_row df
    ∧ nLoss = map (mul KEY_VALUE) (assign_series (length df) atr)
    ∧ trailing_stop_loop (length df) haClose nLoss = Ok trailingStop
    ∧ haClose !! (length df - 1)%nat = Some hn
    ∧ trailingStop !! (length df - 1)%nat = Some tn
    ∧ haClose !! (length df - 2)%nat = Some hp
    ∧ trailingStop !! (length df - 2)%nat = Some tp'
    ∧ last df = Some last_candle
    ∧ (((hn >? tn) && (hp <=? tp'))%num = false →
       ((hn <? tn) && (hp >=? tp'))%num = false →
       calculate_strategy ta_atr df
       = Ok (None, close last_candle, of_Z 0, of_Z 0)).
Proof.
  intros Hlen Hatr.
  destruct (calculate_strategy_spec ta_atr df atr Hlen Hatr)
    as (nLoss & TS & h1 & t1 & h0 & t0 & c1
        & Hcols & Hc1 & Hh1 & Ht1 & Hh0 & Ht0 & Hrun).
  exists (map ha_close_row df), nLoss, TS, h1, t1, h0, t0, c1.
  split_and!; auto.
  - destruct (indicator_columns_spec ta_atr df atr) as (n' & t' & Hc' & -> & _);
      [lia | done |]. rewrite Hcols in Hc'. by injection Hc'.
  - by apply (indicator_columns_loop ta_atr df).
  - rewrite last_lookup. by replace (pred (length df)) with (length df - 1)%nat by lia.
  - intros EL ES. by rewrite Hrun, EL, ES.
Qed.

Lemma calculate_strategy_targets (df : list candle) (signal : side)
    (entry sl tp : num) :
  calculate_strategy ta_atr df = Ok (Some signal, entry, sl, tp) →
  (∃ last_candle, last df = Some last_candle ∧ entry = close last_candle)
  ∧ match signal with
    | LONG =>
        sl = series_min (tail_slice SL_LOOKBACK (col low df))
        ∧ tp = (entry + (entry - sl) * RISK_REWARD)%num
    | SHORT =>
        sl = series_max (tail_slice SL_LOOKBACK (col high df))
        ∧ tp = (entry - (sl - entry) * RISK_REWARD)%num
    end.
Proof.
  intros Hres.
  pose proof (calculate_strategy_Ok_length ta_atr df _ Hres) as Hlen.
  destruct (calculate_strategy_Ok_atr ta_atr df _ Hres) as [atr Hatr].
  destruct (calculate_strategy_spec ta_atr df atr Hlen Hatr)
    as (nLoss & TS & h1 & t1 & h0 & t0 & c1
        & Hcols & Hc1 & Hh1 & Ht1 & Hh0 & Ht0 & Hrun).
  rewrite Hrun in Hres. clear Hrun.
  assert (Hlast : last df = Some c1).
  { rewrite last_lookup.
    by replace (pred (length df)) with (length df - 1)%nat by lia. }
  destruct ((h1 >? t1) && (h0 <=? t0))%num;
    [| destruct ((h1 <? t1) && (h0 >=? t0))%num; [|discriminate] ];
    cbv zeta in Hres; injection Hres as <- <- <- <-; eauto.
Qed.


Lemma next_stop_nan (prevStop price prevPrice : num) :
  next_stop prevStop price prevPrice NaN
  = if (((price >? prevStop) && (prevPrice >? prevStop))
        || ((price <? prevStop) && (prevPrice <? prevStop)))%num
    then prevStop else NaN.
Proof.
  unfold next_stop. rewrite sub_nan_r, add_nan_r, py_max_nan_r, py_min_nan_r.
  repeat case_match; simpl in *; congruence.
Qed.

Lemma no_crossover_on_nan_step (hn hp tp' : num) :
  let tn := next_stop tp' hn hp NaN in
  ((hn >? tn) && (hp <=? tp'))%num = false
  ∧ ((hn <? tn) && (hp >=? tp'))%num = false.
Proof.
  cbv zeta. rewrite next_stop_nan. unfold gtb, geb.
  destruct (tp' <? hn)%num eqn:E1, (tp' <? hp)%num eqn:E2; simpl.
  - rewrite (ltb_leb_false _ _ E2), (ltb_asym _ _ E1). by rewrite andb_false_r.
  - destruct ((hn <? tp') && (hp <? tp'))%num eqn:E3.
    + apply andb_true_iff in E3 as [E3 _]. apply ltb_asym in E3. congruence.
    + by rewrite ltb_nan_r.
  - destruct ((hn <? tp') && (hp <? tp'))%num eqn:E3.
    + apply andb_true_iff in E3 as [_ E3]. apply ltb_asym in E3. congruence.
    + by rewrite ltb_nan_r.
  - destruct (hn <? tp')%num eqn:E3, (hp <? tp')%num eqn:E4; simpl;
      rewrite ?E1, ?E3, ?ltb_nan_r; simpl; auto.
    by rewrite (ltb_leb_false _ _ E4).
Qed.

(** C6, as the program has it: no guard skips an index whose [nLoss] is
    [NaN].  The update then keeps the previous stop when the price and
    the previous price are both above or both below it, and stores [NaN]
    otherwise; while the prices are positive and the loss undefined the
    stop stays at its seed 0.0; and no signal is returned when [nLoss]
    is [NaN] at the last index. *)
Theorem nan_loss_unguarded (df : list candle) (atr : list num) :
  (1 <= length df)%nat →
  call_atr ta_atr df = Ok atr →
  ∃ haClose nLoss trailingStop,
    indicator_columns ta_atr df = Ok (haClose, nLoss, trailingStop)
    ∧ haClose = map ha_close_row df
    ∧ nLoss = map (mul KEY_VALUE) (assign_series (length df) atr)
    ∧ trailing_stop_loop (length df) haClose nLoss = Ok trailingStop
    ∧ (∀ i price prevPrice prevStop,
         (1 <= i)%nat →
         haClose !! i = Some price →
         haClose !! (i - 1)%nat = Some prevPrice →
         trailingStop !! (i - 1)%nat = Some prevStop →
         nLoss !! i = Some NaN →
         trailingStop !! i
         = Some (if (((price >? prevStop) && (prevPrice >? prevStop))
                     || ((price <? prevStop) && (prevPrice <? prevStop)))%num
                 then prevStop else NaN))
    ∧ (∀ i,
         (i < length df)%nat →
         (∀ j price, (j <= i)%nat → haClose !! j = Some price →
                     (price >? of_Z 0)%num = true) →
         (∀ j, (1 <= j)%nat → (j <= i)%nat → nLoss !! j = Some NaN) →
         trailingStop !! i = Some (of_Z 0))
    ∧ ((2 <= length df)%nat →
       nLoss !! (length df - 1)%nat = Some NaN →
       ∃ entry, calculate_strategy ta_atr df = Ok (None, entry, of_Z 0, of_Z 0)).
Proof.
  intros Hlen Hatr.
  destruct (indicator_columns_spec ta_atr df atr Hlen Hatr)
    as (nLoss & TS & Hrun & HnLeq & HnL & HTS & H0 & Hrec).
  exists (map ha_close_row df), nLoss, TS.
  assert (Hstep : ∀ i price prevPrice prevStop,
    (1 <= i)%nat →
    map ha_close_row df !! i = Some price →
    map ha_close_row df !! (i - 1)%nat = Some prevPrice →
    TS !! (i - 1)%nat = Some prevStop →
    nLoss !! i = Some NaN →
    TS !! i = Some (next_stop prevStop price prevPrice NaN)).
  { intros i price pp ps Hi Hprice Hpp Hps Hloss.
    destruct i as [|i]; [lia|].
    replace (S i - 1)%nat with i in * by lia.
    exact (Hrec i ps price pp NaN Hps Hprice Hpp Hloss). }
  split_and!;
    [exact Hrun | reflexivity | exact HnLeq
     | by apply (indicator_columns_loop ta_atr df) | | |].
  - intros i price pp ps Hi Hprice Hpp Hps Hloss.
    rewrite <- next_stop_nan. by apply Hstep.
  - induction i as [|i IH]; intros Hi Hpos Hnan; [exact H0|].
    destruct (lookup_lt_is_Some_2 (map ha_close_row df) (S i)) as [price Hprice];
      [rewrite length_map; lia|].
    destruct (lookup_lt_is_Some_2 (map ha_close_row df) i) as [pp Hpp];
      [rewrite length_map; lia|].
    rewrite (Hrec i (of_Z 0) price pp NaN); auto.
    + rewrite next_stop_nan.
      rewrite (Hpos (S i) price), (Hpos i pp) by (auto; lia). reflexivity.
    + apply IH; [lia | intros j q Hj Hq; apply (Hpos j q); [lia | done]
               | intros; apply Hnan; lia].
    + apply Hnan; lia.
  - intros Hlen2 Hnan.
    destruct (calculate_strategy_spec ta_atr df atr Hlen2 Hatr)
      as (nLoss' & TS' & h1 & t1 & h0 & t0 & c1
          & Hcols & Hc1 & Hh1 & Ht1 & Hh0 & Ht0 & Hcalc).
    rewrite Hrun in Hcols. injection Hcols as <- <-.
    assert (Ht1' : TS !! (length df - 1)%nat = Some (next_stop t0 h1 h0 NaN)).
    { apply Hstep; auto; [lia | |];
        by replace (length df - 1 - 1)%nat with (length df - 2)%nat by lia. }
    rewrite Ht1 in Ht1'. injection Ht1' as ->.
    destruct (no_crossover_on_nan_step h1 h0 t0) as [EL ES].
    cbv zeta in EL, ES. rewrite EL, ES in Hcalc. eauto.
Qed.
End StrategyClaims.

(** ** The ranking *)

Lemma not_below_trans {A} (p q r : num * A) :
  is_nan (fst q) = false → not_below p q → not_below q r → not_below p r.
Proof.
  unfold not_below. destruct p as [[|x] a], q as [[|y] b], r as [[|z] c];
    simpl; try done.
  intros _ H1%negb_false_iff%Qle_bool_iff H2%negb_false_iff%Qle_bool_iff.
  apply negb_false_iff, Qle_bool_iff. by apply Qle_trans with y.
Qed.

Lemma insert_desc_perm {A} (x : num * A) (l : list (num * A)) :
  insert_desc x l ≡ₚ x :: l.
Proof.
  induction l as [|y l IH]; simpl; [done|].
  case_match; [|done]. rewrite IH. apply Permutation_swap.
Qed.

Lemma sort_desc_perm {A} (l : list (num * A)) : sort_desc l ≡ₚ l.
Proof.
  induction l as [|x l IH]; simpl; [done|].
  unfold sort_desc in *. simpl. by rewrite insert_desc_perm, IH.
Qed.

Lemma insert_desc_sorted {A} (x : num * A) (l : list (num * A)) :
  Forall (fun p => is_nan (fst p) = false) l →
  StronglySorted not_below l → StronglySorted not_below (insert_desc x l).
Proof.
  intros Hnan Hs. induction Hs as [|y l Hs IH Hy]; simpl.
  - repeat constructor.
  - apply Forall_cons in Hnan as [Hny Hnan].
    destruct (fst x <? fst y)%num eqn:E.
    + constructor; [by apply IH|].
      rewrite insert_desc_perm. constructor; [|done].
      unfold not_below. by apply ltb_asym.
    + constructor; [by constructor|].
      constructor; [done|].
      eapply Forall_impl; [exact Hy|]. intros z Hz.
      by apply (not_below_trans x y z).
Qed.

Lemma sort_desc_sorted {A} (l : list (num * A)) :
  Forall (fun p => is_nan (fst p) = false) l →
  StronglySorted not_below (sort_desc l).
Proof.
  induction l as [|x l IH]; intros Hnan; [constructor|].
  apply Forall_cons in Hnan as [_ Hnan].
  unfold sort_desc in *. simpl. apply insert_desc_sorted; [|by apply IH].
  fold (sort_desc l). by rewrite sort_desc_perm.
Qed.

Lemma StronglySorted_lookup {A} (R : A → A → Prop) (l : list A) (i j : nat) (x y : A) :
  StronglySorted R l → (i < j)%nat → l !! i = Some x → l !! j = Some y → R x y.
Proof.
  intros Hs. revert i j x y.
  induction Hs as [|z l Hs IH Hz]; intros i j x y Hij Hi Hj.
  - by rewrite lookup_nil in Hi.
  - destruct j as [|j]; [lia|]. destruct i as [|i].
    + injection Hi as ->. rewrite Forall_forall in Hz. apply Hz.
      apply list_elem_of_lookup. eauto.
    + apply (IH i j); auto; lia.
Qed.

Lemma map_result_Ok {A B} (f : A → result B) (g : A → B) (l : list A) :
  (∀ x, x ∈ l → f x = Ok (g x)) → map_result f l = Ok (map g l).
Proof.
  induction l as [|x l IH]; intros H; [done|].
  simpl. rewrite (H x), bind_Ok by (by left).
  rewrite IH, bind_Ok; [done|]. intros y Hy. apply H. by right.
Qed.

Lemma dict_get_Ok {V} (d : list (string * V)) (k : string) (v : V) :
  dict_get d k = Ok v → (k, v) ∈ d.
Proof.
  unfold dict_get. destruct (list_find _ d) as [[i [k' v']]|] eqn:E; [|done].
  intros [= ->]. apply list_find_Some in E as (Hi & Hk & _).
  simpl in Hk. apply Is_true_true, String.eqb_eq in Hk as ->.
  apply list_elem_of_lookup. eauto.
Qed.

Lemma dict_get_is_Ok {V} (d : list (string * V)) (k : string) :
  k ∈ map fst d → ∃ v, dict_get d k = Ok v.
Proof.
  intros [[k' v] [-> Hin]]%list_elem_of_fmap. unfold dict_get.
  destruct (list_find _ d) as [[i [k'' v'']]|] eqn:E; [eauto|].
  exfalso. rewrite list_find_None, Forall_forall in E.
  apply (E (k', v) Hin). simpl. by rewrite String.eqb_refl.
Qed.

Lemma rank_tickers_run (tickers : list (string * ticker)) :
  rank_tickers tickers
  = Ok (take TOP_N
          (map snd (sort_desc (map (fun x => (rank_key tickers x, x))
                                   (valid_tickers tickers))))).
Proof.
  unfold rank_tickers, sorted_by_key_desc.
  rewrite (map_result_Ok _ (fun x => (rank_key tickers x, x))); [done|].
  intros x Hx. unfold rank_key.
  destruct (dict_get_is_Ok tickers x) as [t ->]; [|done].
  unfold valid_tickers in Hx.
  apply list_elem_of_fmap in Hx as [kv [-> Hkv]].
  apply list_elem_of_filter in Hkv as [_ Hkv].
  apply list_elem_of_fmap. eauto.
Qed.

Lemma rank_tickers_few (tickers : list (string * ticker)) :
  (length (valid_tickers tickers) <= TOP_N)%nat →
  ∃ top, rank_tickers tickers = Ok top ∧ top ≡ₚ valid_tickers tickers.
Proof.
  intros Hfew. rewrite rank_tickers_run. eexists. split; [reflexivity|].
  rewrite take_ge.
  - rewrite sort_desc_perm, map_map. simpl. by rewrite map_id.
  - rewrite length_map, sort_desc_perm, length_map. exact Hfew.
Qed.

Lemma key_of_not_nan (t : ticker) :
  (∀ p, percentage t = Some p → is_nan p = false) → is_nan (key_of t) = false.
Proof.
  unfold key_of. destruct (percentage t) as [p|]; [|done].
  intros H. destruct (truthy p); [by apply H | done].
Qed.

Lemma sorted_keys (tickers : list (string * ticker)) (i : nat) (x : string) :
  map snd (sort_desc (map (fun x => (rank_key tickers x, x))
                          (valid_tickers tickers))) !! i = Some x →
  sort_desc (map (fun x => (rank_key tickers x, x)) (valid_tickers tickers)) !! i
  = Some (rank_key tickers x, x).
Proof.
  rewrite list_lookup_fmap. 
  destruct (sort_desc _ !! i) as [[k y]|] eqn:E; [|done].
  intros [= <-]. f_equal.
  assert (Hin : (k, y) ∈ sort_desc (map (fun x => (rank_key tickers x, x))
                                        (valid_tickers tickers))).
  { apply list_elem_of_lookup. eauto. }
  rewrite sort_desc_perm in Hin.
  apply list_elem_of_fmap in Hin as [z [[= -> ->] _]]. done.
Qed.

(** C9, as the program has it: when every reported change is a number or
    missing (none is [NaN]), a symbol whose reported change is zero gets
    the key of a symbol without a change, -100, and is ranked after every
    symbol whose change is a nonzero number above -100.  [top] is what is
    returned, the first [TOP_N] of the whole ranking [top ++ rest], which
    lists the eligible symbols: in it such a symbol never comes later than
    the zero-change symbol, and it is returned whenever the zero-change
    symbol is (provided it is an eligible pair). *)
Theorem zero_change_ranked_as_missing (tickers : list (string * ticker))
    (a b : string) (ta tb : ticker) (z x : num) :
  changes_are_numbers tickers = true →
  dict_get tickers a = Ok ta → percentage ta = Some z → truthy z = false →
  dict_get tickers b = Ok tb → percentage tb = Some x → truthy x = true →
  (x >? of_Z (-100))%num = true →
  ∃ top rest,
    rank_tickers tickers = Ok top
    ∧ top ++ rest ≡ₚ valid_tickers tickers
    ∧ length top = Nat.min TOP_N (length (valid_tickers tickers))
    ∧ key_of ta = key_of (Ticker None)
    ∧ (∀ i j, (top ++ rest) !! i = Some a → (top ++ rest) !! j = Some b →
              (j < i)%nat)
    ∧ (a ∈ top → usdt_pair b = true → b ∈ top).
Proof.
  intros Hnum Ha Hpa Hz Hb Hpb Hx Hgt.
  assert (Hnan : ∀ k t p, (k, t) ∈ tickers → percentage t = Some p →
                          is_nan p = false).
  { intros k t p Hin Hp. unfold changes_are_numbers in Hnum.
    rewrite forallb_forall in Hnum.
    specialize (Hnum (k, t) (proj1 (list_elem_of_In _ _) Hin)). simpl in Hnum.
    rewrite Hp in Hnum. by apply negb_true_iff. }
  set (keyed := map (fun x => (rank_key tickers x, x)) (valid_tickers tickers)).
  exists (take TOP_N (map snd (sort_desc keyed))),
         (drop TOP_N (map snd (sort_desc keyed))).
  split; [apply rank_tickers_run|]. rewrite take_drop.
  assert (Hperm : map snd (sort_desc keyed) ≡ₚ valid_tickers tickers).
  { unfold keyed. rewrite sort_desc_perm, map_map. simpl. by rewrite map_id. }
  assert (Hka : rank_key tickers a = of_Z (-100)).
  { unfold rank_key, key_of. by rewrite Ha, Hpa, Hz. }
  assert (Hkb : rank_key tickers b = x).
  { unfold rank_key, key_of. by rewrite Hb, Hpb, Hx. }
  assert (Hsorted : StronglySorted not_below (sort_desc keyed)).
  { apply sort_desc_sorted, Forall_forall. intros [k y] Hin.
    apply list_elem_of_fmap in Hin as [s [[= -> ->] Hs]]. simpl.
    unfold valid_tickers in Hs.
    apply list_elem_of_fmap in Hs as [[s' t] [-> Hs]].
    apply list_elem_of_filter in Hs as [_ Hs]. simpl.
    destruct (dict_get_is_Ok tickers s') as [t' Ht'].
    { apply list_elem_of_fmap. by exists (s', t). }
    unfold rank_key. rewrite Ht'. apply key_of_not_nan.
    intros p. apply (Hnan s'). by apply dict_get_Ok. }
  assert (Horder : ∀ i j, map snd (sort_desc keyed) !! i = Some a →
                          map snd (sort_desc keyed) !! j = Some b → (j < i)%nat).
  { intros i j Hi%sorted_keys Hj%sorted_keys. fold keyed in Hi, Hj.
    rewrite Hka in Hi. rewrite Hkb in Hj.
    destruct (decide (j < i)%nat) as [|Hge]; [done|]. exfalso.
    destruct (decide (i = j)) as [->|Hne].
    - rewrite Hi in Hj. injection Hj as <- _.
      revert Hgt. by vm_compute.
    - assert (Hnb : not_below (of_Z (-100), a) (x, b)).
      { apply (StronglySorted_lookup _ _ i j _ _ Hsorted); [lia|done..]. }
      unfold not_below in Hnb. cbn [fst] in Hnb. unfold gtb in Hgt. congruence. }
  split_and!.
  - exact Hperm.
  - by rewrite length_take, Hperm.
  - unfold key_of. by rewrite Hpa, Hz.
  - exact Horder.
  - intros [i [Hi Hlt]]%elem_of_take Hvalid.
    assert (Hin : (x, b) ∈ sort_desc keyed).
    { rewrite sort_desc_perm. apply list_elem_of_fmap. exists b.
      split; [by rewrite Hkb|]. unfold valid_tickers.
      apply list_elem_of_fmap. exists (b, tb). split; [done|].
      apply list_elem_of_filter. split; [done | by apply dict_get_Ok]. }
    apply list_elem_of_lookup in Hin as [j Hj].
    assert (Hj' : map snd (sort_desc keyed) !! j = Some b).
    { by rewrite list_lookup_fmap, Hj. }
    apply elem_of_take. exists j. split; [done|].
    specialize (Horder i j Hi Hj'). lia.
Qed.

(** ** The scan *)

Section ScannerFacts.
Variable ta_atr : atr_fn.
Variable fetch_tickers : result (list (string * ticker)).
Variable fetch_ohlcv : string -> result (list candle).
Variable bot_send_message : message -> result unit.

Lemma send_telegram_message_run (msg : message) (log : list event) :
  send_telegram_message bot_send_message msg log
  = (Ok tt,
     log ++ SendMessage msg ::
       match bot_send_message msg with
       | Ok _ => []
       | Raise e => [PrintTelegramError e]
       end).
Proof.
  unfold send_telegram_message, try_except, mbind, io_bind, emit, lift_result.
  destruct (bot_send_message msg) as [[]|e]; [done|].
  by rewrite <- app_assoc.
Qed.

Lemma analyze_guarded (symbol : string) (log : list event) :
  try_except (analyze ta_atr fetch_ohlcv bot_send_message symbol)
             (fun e => emit (PrintAnalyzeError symbol e)) log
  = (Ok tt, log ++ events_of ta_atr fetch_ohlcv bot_send_message symbol).
Proof.
  unfold events_of, outcome_of, try_except, analyze.
  unfold mbind, io_bind, mret, io_ret, emit, lift_result.
  destruct (fetch_ohlcv symbol) as [df|e]; [|by rewrite <- app_assoc].
  destruct (length df <? LIMIT)%nat; [done|].
  destruct (calculate_strategy ta_atr df) as [[[[[s|] entry] sl] tp]|e];
    [| |by rewrite <- app_assoc].
  - rewrite send_telegram_message_run. f_equal. by rewrite <- !app_assoc.
  - by rewrite <- app_assoc.
Qed.

Lemma scan_symbols_run (top_coins : list string) :
  ∀ log,
    scan_symbols ta_atr fetch_ohlcv bot_send_message top_coins log
    = (Ok tt,
       log ++ flat_map (events_of ta_atr fetch_ohlcv bot_send_message) top_coins).
Proof.
  unfold scan_symbols.
  induction top_coins as [|symbol rest IH]; intros log.
  - simpl. by rewrite app_nil_r.
  - simpl. unfold mbind at 1, io_bind at 1.
    rewrite analyze_guarded, IH. by rewrite <- app_assoc.
Qed.

Lemma get_top_gainers_Ok (log : list event) :
  ∃ top_coins log',
    get_top_gainers fetch_tickers log = (Ok top_coins, log').
Proof.
  unfold get_top_gainers, try_except, mbind, io_bind, mret, io_ret, emit, lift_result.
  destruct fetch_tickers as [tickers|e]; [|eauto].
  destruct (rank_tickers tickers); eauto.
Qed.

(** C8: the scan visits the candidates one after the other, in ranking
    order; what it does for a symbol depends on that symbol only: a short
    series is skipped, a failure of the retrieval or of the strategy is
    logged, a failed dispatch is logged, and in every case the scan goes
    on with the next symbol.  The strategy fails behind the length guard
    when the call of the average true range raises.  Around a symbol whose
    retrieval or whose average true range raises, the candidates before
    and after it are processed as if it were not there.  The loop and the
    whole scan never raise. *)
Theorem scan_isolates_symbols (top_coins : list string) (log : list event) :
  scan_symbols ta_atr fetch_ohlcv bot_send_message top_coins log
  = (Ok tt,
     log ++ flat_map (events_of ta_atr fetch_ohlcv bot_send_message) top_coins)
  ∧ (∀ symbol df,
       fetch_ohlcv symbol = Ok df → (length df < LIMIT)%nat →
       events_of ta_atr fetch_ohlcv bot_send_message symbol
       = [FetchOhlcv symbol])
  ∧ (∀ symbol e,
       fetch_ohlcv symbol = Raise e →
       events_of ta_atr fetch_ohlcv bot_send_message symbol
       = [FetchOhlcv symbol; PrintAnalyzeError symbol e])
  ∧ (∀ symbol df e,
       fetch_ohlcv symbol = Ok df → (LIMIT <= length df)%nat →
       calculate_strategy ta_atr df = Raise e →
       events_of ta_atr fetch_ohlcv bot_send_message symbol
       = [FetchOhlcv symbol; PrintAnalyzeError symbol e])
  ∧ (∀ symbol df e,
       fetch_ohlcv symbol = Ok df → (LIMIT <= length df)%nat →
       call_atr ta_atr df = Raise e →
       calculate_strategy ta_atr df = Raise e)
  ∧ (∀ symbol df s entry sl tp e,
       fetch_ohlcv symbol = Ok df → (LIMIT <= length df)%nat →
       calculate_strategy ta_atr df = Ok (Some s, entry, sl, tp) →
       bot_send_message (Message symbol s entry sl tp) = Raise e →
       events_of ta_atr fetch_ohlcv bot_send_message symbol
       = [FetchOhlcv symbol; PrintSignalFound symbol;
          SendMessage (Message symbol s entry sl tp);
          PrintTelegramError e; Sleep])
  ∧ (∀ before symbol after e,
       (fetch_ohlcv symbol = Raise e
        ∨ ∃ df, fetch_ohlcv symbol = Ok df ∧ (LIMIT <= length df)%nat
                ∧ call_atr ta_atr df = Raise e) →
       snd (scan_symbols ta_atr fetch_ohlcv bot_send_message
              (before ++ symbol :: after) log)
       = log
         ++ flat_map (events_of ta_atr fetch_ohlcv bot_send_message) before
         ++ [FetchOhlcv symbol; PrintAnalyzeError symbol e]
         ++ flat_map (events_of ta_atr fetch_ohlcv bot_send_message) after)
  ∧ fst (run_scanner ta_atr fetch_tickers fetch_ohlcv bot_send_message log)
    = Ok tt.
Proof.
  split_and!.
  - apply scan_symbols_run.
  - intros symbol df Hf Hlt. unfold events_of, outcome_of. rewrite Hf.
    by rewrite (proj2 (Nat.ltb_lt _ _) Hlt).
  - intros symbol e Hf. unfold events_of, outcome_of. by rewrite Hf.
  - intros symbol df e Hf Hle Hc. unfold events_of, outcome_of. rewrite Hf, Hc.
    by rewrite (proj2 (Nat.ltb_ge _ _) Hle).
  - intros symbol df e Hf Hle Hatr. apply calculate_strategy_Raise; [|done].
    unfold LIMIT in Hle. lia.
  - intros symbol df s entry sl tp e Hf Hle Hc Hs.
    unfold events_of, outcome_of. rewrite Hf, Hc.
    rewrite (proj2 (Nat.ltb_ge _ _) Hle). by rewrite Hs.
  - intros before symbol after e Hfail. rewrite scan_symbols_run. cbn [snd].
    rewrite flat_map_app. cbn [flat_map]. do 2 f_equal.
    unfold events_of at 1, outcome_of.
    destruct Hfail as [Hf|(df & Hf & Hle & Hatr)]; rewrite Hf; [done|].
    rewrite (proj2 (Nat.ltb_ge _ _) Hle).
    rewrite (calculate_strategy_Raise ta_atr df e); [done | | done].
    unfold LIMIT in Hle. lia.
  - unfold run_scanner. unfold mbind at 1, io_bind at 1. unfold emit at 1.
    unfold mbind at 1, io_bind at 1.
    destruct (get_top_gainers_Ok (log ++ [PrintStart])) as (top & log' & ->).
    unfold mbind at 1, io_bind at 1. unfold emit at 1.
    unfold mbind at 1, io_bind at 1.
    rewrite scan_symbols_run. reflexivity.
Qed.

(** C4, as the program has it: nothing checks the sign of the risk.  A
    signal whose stop is not on the losing side of the entry is returned
    like any other, with a target that is then not on the winning side,
    and the scan dispatches it. *)
Theorem degenerate_risk_not_suppressed (top_coins : list string)
    (symbol : string) (df : list candle) (signal : side)
    (entry sl tp : num) (log : list event) :
  symbol ∈ top_coins →
  fetch_ohlcv symbol = Ok df → (LIMIT <= length df)%nat →
  calculate_strategy ta_atr df = Ok (Some signal, entry, sl, tp) →
  match signal with
  | LONG => (sl >=? entry)%num
  | SHORT => (sl <=? entry)%num
  end = true →
  match signal with
  | LONG => (tp <=? entry)%num
  | SHORT => (tp >=? entry)%num
  end = true
  ∧ SendMessage (Message symbol signal entry sl tp)
    ∈ snd (scan_symbols ta_atr fetch_ohlcv bot_send_message top_coins log).
Proof.
  intros Hin Hf Hle Hres Hrisk. split.
  - apply calculate_strategy_targets in Hres as [_ Ht].
    destruct signal; destruct Ht as [_ ->].
    + by apply target_not_above_entry.
    + by apply target_not_below_entry.
  - rewrite scan_symbols_run. simpl. apply elem_of_app. right.
    apply list_elem_of_In, in_flat_map. exists symbol.
    split; [by apply list_elem_of_In|].
    unfold events_of, outcome_of. rewrite Hf, Hres.
    rewrite (proj2 (Nat.ltb_ge _ _) Hle). simpl. auto.
Qed.
End ScannerFacts.

(** ** The program on concrete frames *)

Lemma trailing_stop_recurrence_witness :
  (1 <= length (rally_frame 10))%nat
  ∧ ∃ atr trailingStop,
      call_atr wilder_atr (rally_frame 10) = Ok atr
      ∧ indicator_columns wilder_atr (rally_frame 10)
        = Ok (map ha_close_row (rally_frame 10),
              map (mul KEY_VALUE) (assign_series 12 atr),
              trailingStop)
      ∧ trailingStop !! 0%nat = Some (of_Z 0)
      ∧ trailingStop !! 9%nat = Some (of_Z 96)
      ∧ trailingStop !! 10%nat = Some (Fin (201 # 2)).
Proof.
  assert (H : (1 <= length (rally_frame 10))%nat) by (simpl; lia).
  split; [exact H|]. eexists.
  destruct (trailing_stop_recurrence wilder_atr (rally_frame 10) _ H eq_refl)
    as (h & n & t & Hrun & -> & -> & Hloop & _ & _ & _ & H0 & _).
  exists t. split; [reflexivity|]. split; [exact Hrun|]. split; [exact H0|].
  vm_compute in Hloop. injection Hloop as <-. split; reflexivity.
Defined.

(** A LONG on [rally_frame 10] and a SHORT on [slump_frame 10]. *)
Lemma signal_iff_crossover_witness :
  (∃ entry sl tp,
     calculate_strategy wilder_atr (rally_frame 10) = Ok (Some LONG, entry, sl, tp))
  ∧ (∃ entry sl tp,
       calculate_strategy wilder_atr (slump_frame 10)
       = Ok (Some SHORT, entry, sl, tp)).
Proof.
  split.
  - destruct (signal_iff_crossover wilder_atr (rally_frame 10) _
                ltac:(simpl; lia) eq_refl)
      as (h & n & t & hn & tn & hp & tp' & sig & e & sl & tp
          & _ & -> & -> & Hloop & Hhn & Htn & Hhp & Htp & Hrun & [_ HL] & _).
    vm_compute in Hloop. injection Hloop as <-.
    vm_compute in Hhn, Htn, Hhp, Htp.
    injection Hhn as <-. injection Htn as <-.
    injection Hhp as <-. injection Htp as <-.
    rewrite HL in Hrun by (split; reflexivity). eauto.
  - destruct (signal_iff_crossover wilder_atr (slump_frame 10) _
                ltac:(simpl; lia) eq_refl)
      as (h & n & t & hn & tn & hp & tp' & sig & e & sl & tp
          & _ & -> & -> & Hloop & Hhn & Htn & Hhp & Htp & Hrun & _ & [_ HS] & _).
    vm_compute in Hloop. injection Hloop as <-.
    vm_compute in Hhn, Htn, Hhp, Htp.
    injection Hhn as <-. injection Htn as <-.
    injection Hhp as <-. injection Htp as <-.
    rewrite HS in Hrun by (split; reflexivity). eauto.
Defined.

(** Twelve quiet candles: the close stays above the stop, no crossover. *)
Lemma no_crossover_result_witness :
  (2 <= length (replicate 12 quiet_candle))%nat
  ∧ calculate_strategy wilder_atr (replicate 12 quiet_candle)
    = Ok (None, of_Z 100, of_Z 0, of_Z 0).
Proof.
  assert (H : (2 <= length (replicate 12 quiet_candle))%nat) by (simpl; lia).
  split; [exact H|].
  destruct (no_crossover_result wilder_atr (replicate 12 quiet_candle) _ H eq_refl)
    as (h & n & t & hn & tn & hp & tp' & c
        & _ & -> & -> & Hloop & Hhn & Htn & Hhp & Htp & Hlast & Hnone).
  vm_compute in Hloop. injection Hloop as <-.
  vm_compute in Hhn, Htn, Hhp, Htp, Hlast.
  injection Hhn as <-. injection Htn as <-.
  injection Hhp as <-. injection Htp as <-. injection Hlast as <-.
  apply Hnone; reflexivity.
Defined.



Lemma nan_loss_unguarded_witness :
  (1 <= length warmup_frame)%nat
  ∧ ∃ trailingStop,
      trailing_stop_loop 9 (map ha_close_row warmup_frame) (replicate 9 NaN)
      = Ok trailingStop
      ∧ trailingStop !! 1%nat = Some NaN.
Proof.
  assert (H : (1 <= length warmup_frame)%nat) by (simpl; lia).
  split; [exact H|].
  destruct (nan_loss_unguarded wilder_atr warmup_frame _ H eq_refl)
    as (h & n & t & _ & -> & -> & Hloop & Hstep & _).
  exists t. split; [exact Hloop|].
  by apply (Hstep 1%nat (of_Z 100) (of_Z 0) (of_Z 0));
    [lia | | | vm_compute in Hloop; injection Hloop as <- |].
Defined.

(** The frame [warmup_frame] lies within the warm-up: every [nLoss] is
    [NaN], the update at index 1 stores [NaN] in the stop, every later
    update reads it, and the crossover test of the last candle compares
    against it. *)
Lemma nan_loss_reaches_the_stop :
  indicator_columns wilder_atr warmup_frame
  = Ok (of_Z 0 :: replicate 8 (of_Z 100),
        replicate 9 NaN,
        of_Z 0 :: replicate 8 NaN)
  ∧ calculate_strategy wilder_atr warmup_frame
    = Ok (None, of_Z 100, of_Z 0, of_Z 0).
Proof. split; reflexivity. Qed.

(** The last candle of [spike_frame 98] closes on its low, the lowest of
    the window: the stop equals the entry, the risk is zero, and the LONG
    signal is returned and dispatched all the same. *)
Lemma degenerate_long_is_dispatched :
  calculate_strategy wilder_atr (spike_frame 98)
  = Ok (Some LONG, of_Z 85, of_Z 85, of_Z 85)
  ∧ (of_Z 85 >=? of_Z 85)%num = true
  ∧ snd (run_scanner wilder_atr
           (Ok [("X/USDT"%string, Ticker (Some (of_Z 1)))])
           one_symbol_exchange obliging_bot [])
    = [PrintStart; PrintScanning ["X/USDT"%string]; FetchOhlcv "X/USDT";
       PrintSignalFound "X/USDT";
       SendMessage (Message "X/USDT" LONG (of_Z 85) (of_Z 85) (of_Z 85));
       Sleep; PrintComplete].
Proof. split_and!; by vm_compute. Qed.

Lemma degenerate_risk_not_suppressed_witness :
  (LIMIT <= length (spike_frame 98))%nat
  ∧ SendMessage (Message "X/USDT" LONG (of_Z 85) (of_Z 85) (of_Z 85))
    ∈ snd (scan_symbols wilder_atr one_symbol_exchange obliging_bot
             ["X/USDT"%string] []).
Proof.
  assert (H : (LIMIT <= length (spike_frame 98))%nat) by (vm_compute; lia).
  split; [exact H|].
  apply (degenerate_risk_not_suppressed wilder_atr one_symbol_exchange
           obliging_bot ["X/USDT"%string] "X/USDT" (spike_frame 98) LONG
           (of_Z 85) (of_Z 85) (of_Z 85) []).
  - constructor.
  - reflexivity.
  - exact H.
  - by vm_compute.
  - reflexivity.
Defined.

(** C7: with a flat symbol and a falling one, the flat one is returned
    last, although 0 is the larger change. *)
Theorem zero_change_sorts_after_a_loss :
  get_top_gainers (Ok flat_and_falling) []
  = (Ok ["B/USDT"%string; "A/USDT"%string], [])
  ∧ (of_Z 0 >? of_Z (-5))%num = true.
Proof. split; reflexivity. Qed.

(** A flat symbol ahead of a rising one: beside a [NaN] key the order of
    the keys is lost. *)
Lemma zero_change_outranks_a_gain :
  changes_are_numbers beside_nan = false
  ∧ rank_tickers beside_nan = Ok ["A/USDT"; "N/USDT"; "B/USDT"]%string
  ∧ dict_get beside_nan "A/USDT" = Ok (Ticker (Some (of_Z 0)))
  ∧ truthy (of_Z 0) = false
  ∧ dict_get beside_nan "B/USDT" = Ok (Ticker (Some (of_Z 5)))
  ∧ truthy (of_Z 5) = true
  ∧ (of_Z 5 >? of_Z (-100))%num = true.
Proof. split_and!; reflexivity. Qed.

Lemma zero_change_ranked_as_missing_witness :
  changes_are_numbers flat_and_falling = true
  ∧ rank_tickers flat_and_falling = Ok ["B/USDT"; "A/USDT"]%string
  ∧ ∃ rest,
      ["B/USDT"; "A/USDT"]%string ++ rest ≡ₚ valid_tickers flat_and_falling
      ∧ ∀ i j, (["B/USDT"; "A/USDT"]%string ++ rest) !! i = Some "A/USDT"%string →
               (["B/USDT"; "A/USDT"]%string ++ rest) !! j = Some "B/USDT"%string →
               (j < i)%nat.
Proof.
  split; [reflexivity|]. split; [reflexivity|].
  destruct (zero_change_ranked_as_missing flat_and_falling "A/USDT" "B/USDT"
              (Ticker (Some (of_Z 0))) (Ticker (Some (of_Z (-5))))
              (of_Z 0) (of_Z (-5)))
    as (top & rest & Hrun & Hperm & _ & _ & Horder & _); try reflexivity.
  vm_compute in Hrun. injection Hrun as <-.
  exists rest. by split.
Defined.

(** One candidate whose frame makes the average true range raise, and one
    with a signal behind it: the failure is logged and the signal goes
    out. *)
Lemma scan_isolates_symbols_witness :
  calculate_strategy picky_atr blank_frame = Raise (OtherError "TypeError")
  ∧ snd (scan_symbols picky_atr two_symbol_exchange obliging_bot
           ["N/USDT"; "X/USDT"]%string [])
    = [FetchOhlcv "N/USDT";
       PrintAnalyzeError "N/USDT" (OtherError "TypeError");
       FetchOhlcv "X/USDT"; PrintSignalFound "X/USDT";
       SendMessage (Message "X/USDT" LONG (of_Z 85) (of_Z 85) (of_Z 85));
       Sleep].
Proof.
  destruct (scan_isolates_symbols picky_atr (Ok []) two_symbol_exchange
              obliging_bot [] [])
    as (_ & _ & _ & _ & Hatr & _ & Hiso & _).
  split.
  - apply (Hatr "N/USDT"%string); [reflexivity | vm_compute; lia | reflexivity].
  - etrans;
      [apply (Hiso [] "N/USDT"%string ["X/USDT"%string] (OtherError "TypeError"))
      | by vm_compute].
    right. exists blank_frame.
    split_and!; [reflexivity | vm_compute; lia | reflexivity].
Defined.

(** * Further properties of the program *)

(** ** More on numbers *)

Lemma ltb_false_Qle (x y : Q) : (Fin x <? Fin y)%num = false ↔ (y <= x)%Q.
Proof. simpl. rewrite negb_false_iff. apply Qle_bool_iff. Qed.

Lemma leb_false_Qlt (x y : Q) : (Fin x <=? Fin y)%num = false ↔ (y < x)%Q.
Proof.
  simpl. split.
  - intros H. apply Qnot_le_lt. intros Hle%Qle_bool_iff. congruence.
  - intros H. destruct (Qle_bool x y) eqn:E; [|done].
    apply Qle_bool_iff in E. lra.
Qed.

(** Turn the comparisons of numbers in the context and the goal into
    comparisons of rationals. *)
Ltac to_Q :=
  unfold gtb, geb in *;
  repeat match goal with
  | H : (Fin _ <? Fin _)%num = true |- _ => apply ltb_Qlt in H
  | H : (Fin _ <? Fin _)%num = false |- _ => apply ltb_false_Qle in H
  | H : (Fin _ <=? Fin _)%num = true |- _ => apply leb_Qle in H
  | H : (Fin _ <=? Fin _)%num = false |- _ => apply leb_false_Qlt in H
  | |- (Fin _ <? Fin _)%num = true => apply ltb_Qlt
  | |- (Fin _ <? Fin _)%num = false => apply ltb_false_Qle
  | |- (Fin _ <=? Fin _)%num = true => apply leb_Qle
  | |- (Fin _ <=? Fin _)%num = false => apply leb_false_Qlt
  end;
  rewrite ?Qred_correct in *.

Lemma py_max_ge (a b : num) : is_nan a = false → (py_max a b >=? a)%num = true.
Proof.
  intros Ha. unfold py_max, geb, gtb. destruct (a <? b)%num eqn:E.
  - by apply ltb_leb.
  - by apply leb_refl.
Qed.

Lemma py_min_le (a b : num) : is_nan a = false → (py_min a b <=? a)%num = true.
Proof.
  intros Ha. unfold py_min. destruct (b <? a)%num eqn:E.
  - by apply ltb_leb.
  - by apply leb_refl.
Qed.

Lemma ltb_is_number (a b : num) :
  (a <? b)%num = true → is_nan a = false ∧ is_nan b = false.
Proof. by destruct a, b. Qed.

Lemma next_stop_ratchet_up (ps price pp loss : num) :
  (price >? ps)%num = true → (pp >? ps)%num = true →
  (next_stop ps price pp loss >=? ps)%num = true.
Proof.
  intros H1 H2. unfold next_stop. rewrite H1, H2. simpl.
  apply py_max_ge. unfold gtb in H1. by apply ltb_is_number in H1 as [? _].
Qed.

Lemma next_stop_ratchet_down (ps price pp loss : num) :
  (price <? ps)%num = true → (pp <? ps)%num = true →
  (next_stop ps price pp loss <=? ps)%num = true.
Proof.
  intros H1 H2. unfold next_stop, gtb. rewrite (ltb_asym _ _ H1), H1, H2. simpl.
  apply py_min_le. by apply ltb_is_number in H1 as [_ ?].
Qed.

Lemma next_stop_not_past_price (ps price pp loss : num) :
  (loss >=? of_Z 0)%num = true → is_nan ps = false →
  ((price >? ps)%num = true → (next_stop ps price pp loss <=? price)%num = true)
  ∧ ((price <=? ps)%num = true → (price <=? next_stop ps price pp loss)%num = true).
Proof.
  destruct loss as [|l]; [done|]. destruct ps as [|s]; [done|].
  intros Hl _. unfold geb, of_Z in Hl. apply leb_Qle in Hl.
  change (inject_Z 0) with 0%Q in Hl.
  destruct price as [|p]; [by split|].
  unfold next_stop, py_max, py_min.
  destruct (Fin p <=? Fin s)%num eqn:E0;
  destruct (Fin p >? Fin s)%num eqn:E1; cbn [andb];
  try (exfalso; to_Q; lra); (split; [intros H|intros H]; try discriminate).
  - destruct (Fin p <? Fin s)%num eqn:E4; cbn [andb].
    + destruct (pp <? Fin s)%num eqn:E5.
      * destruct (Fin p + Fin l <? Fin s)%num eqn:E6; cbn [add sub lift2] in *;
          to_Q; lra.
      * cbn [add sub lift2]. to_Q; lra.
    + cbn [add sub lift2]. to_Q; lra.
  - destruct (pp >? Fin s)%num eqn:E2; cbn [andb].
    + destruct (Fin p - Fin l >? Fin s)%num eqn:E3; cbn [add sub lift2] in *;
        to_Q; lra.
    + assert (E4 : (Fin p <? Fin s)%num = false) by (to_Q; lra).
      rewrite E4. cbn [andb add sub lift2]. to_Q; lra.
Qed.

Lemma next_stop_side (ps price pp loss : num) :
  (loss >=? of_Z 0)%num = true → is_nan ps = false →
  ((price >? next_stop ps price pp loss)%num = true → (price >? ps)%num = true)
  ∧ ((price <? next_stop ps price pp loss)%num = true → (price <=? ps)%num = true).
Proof.
  intros Hl Hps.
  destruct (next_stop_not_past_price ps price pp loss Hl Hps) as [Hup Hdown].
  destruct price as [|p].
  { split; intros H; [unfold gtb in H; by rewrite ltb_nan_r in H | done]. }
  destruct ps as [|s]; [done|].
  destruct (Fin p <=? Fin s)%num eqn:E.
  - split; [|done]. intros H. unfold gtb in H. apply ltb_leb_false in H.
    rewrite Hdown in H; done.
  - assert (Hgt : (Fin p >? Fin s)%num = true) by (to_Q; lra).
    split; [done|]. intros H. apply ltb_leb_false in H.
    rewrite Hup in H; done.
Qed.

(** The branch a crossing takes. *)
Lemma next_stop_cross_up (ps price pp loss : num) :
  (price >? ps)%num = true → (pp <=? ps)%num = true →
  next_stop ps price pp loss = (price - loss)%num.
Proof.
  intros H1 H2. unfold next_stop. rewrite H1.
  assert ((pp >? ps)%num = false) as ->.
  { unfold gtb. destruct (ps <? pp)%num eqn:E; [|done].
    apply ltb_leb_false in E. congruence. }
  cbn [andb]. unfold gtb in H1. by rewrite (ltb_asym _ _ H1).
Qed.

Lemma next_stop_cross_down (ps price pp loss : num) :
  (price <=? ps)%num = true → (pp >=? ps)%num = true →
  next_stop ps price pp loss = (price + loss)%num.
Proof.
  intros H1 H2. unfold next_stop.
  assert ((price >? ps)%num = false) as ->.
  { unfold gtb. destruct (ps <? price)%num eqn:E; [|done].
    apply ltb_leb_false in E. congruence. }
  assert ((pp <? ps)%num = false) as ->.
  { destruct (pp <? ps)%num eqn:E; [|done].
    apply ltb_leb_false in E. unfold geb in H2. congruence. }
  cbn [andb]. by rewrite andb_false_r.
Qed.

Lemma next_stop_number (ps price pp loss : num) :
  is_nan ps = false → is_nan price = false → is_nan loss = false →
  is_nan (next_stop ps price pp loss) = false.
Proof.
  destruct ps, price, loss; try done. intros _ _ _.
  unfold next_stop, py_max, py_min. cbn [add sub lift2].
  repeat case_match; reflexivity.
Qed.

Lemma long_target_not_below_entry (e s : num) :
  (s <=? e)%num = true → (e + (e - s) * RISK_REWARD >=? e)%num = true.
Proof.
  destruct e as [|e], s as [|s]; try discriminate.
  intros H. unfold RISK_REWARD, of_Z. cbn [add sub mul lift2].
  change (inject_Z 2) with 2%Q. to_Q. lra.
Qed.

Lemma short_target_not_above_entry (e s : num) :
  (s >=? e)%num = true → (e - (s - e) * RISK_REWARD <=? e)%num = true.
Proof.
  destruct e as [|e], s as [|s]; try discriminate.
  intros H. unfold RISK_REWARD, of_Z. cbn [add sub mul lift2].
  change (inject_Z 2) with 2%Q. to_Q. lra.
Qed.

Lemma last_in_tail_slice {A} (w : nat) (s : list A) (x : A) :
  (1 <= w)%nat → last s = Some x → x ∈ tail_slice w s.
Proof.
  intros Hw Hx. unfold tail_slice. rewrite last_lookup in Hx.
  apply list_elem_of_lookup. exists (pred (length s) - (length s - w))%nat.
  rewrite lookup_drop. rewrite <- Hx. f_equal.
  assert (length s ≠ 0%nat); [|lia].
  intros H0. apply length_zero_iff_nil in H0. subst. done.
Qed.

Section MoreStrategyFacts.
Variable ta_atr : atr_fn.

Lemma indicator_columns_inv (df : list candle) (haClose nLoss trailingStop : list num) :
  indicator_columns ta_atr df = Ok (haClose, nLoss, trailingStop) →
  (1 <= length df)%nat
  ∧ haClose = map ha_close_row df
  ∧ length nLoss = length df
  ∧ length trailingStop = length df
  ∧ trailingStop !! 0%nat = Some (of_Z 0)
  ∧ (∀ j ps price pp loss,
       trailingStop !! j = Some ps → haClose !! S j = Some price →
       haClose !! j = Some pp → nLoss !! S j = Some loss →
       trailingStop !! S j = Some (next_stop ps price pp loss)).
Proof.
  intros Hrun.
  assert (Hlen : (1 <= length df)%nat).
  { destruct df; [discriminate | simpl; lia]. }
  destruct (indicator_columns_Ok_inv ta_atr df _ Hrun) as (_ & atr & Hatr).
  destruct (indicator_columns_spec ta_atr df atr Hlen Hatr)
    as (nLoss' & TS' & Hrun' & _ & HnL & HTS & H0 & Hrec).
  rewrite Hrun in Hrun'. injection Hrun' as -> -> ->. by split_and!.
Qed.

(** X1: a trend that continues never moves the stop against itself.  While
    the Heikin-Ashi close and the one before are both above the previous
    stop, the new stop is at or above the previous one; while both are
    below, it is at or below. *)
Theorem trailing_stop_ratchets (df : list candle)
    (haClose nLoss trailingStop : list num) (i : nat)
    (price prevPrice prevStop stop : num) :
  indicator_columns ta_atr df = Ok (haClose, nLoss, trailingStop) →
  (1 <= i)%nat →
  haClose !! i = Some price →
  haClose !! (i - 1)%nat = Some prevPrice →
  trailingStop !! (i - 1)%nat = Some prevStop →
  trailingStop !! i = Some stop →
  ((price >? prevStop)%num = true → (prevPrice >? prevStop)%num = true →
   (stop >=? prevStop)%num = true)
  ∧ ((price <? prevStop)%num = true → (prevPrice <? prevStop)%num = true →
     (stop <=? prevStop)%num = true).
Proof.
  intros (_ & _ & HnL & HTS & _ & Hrec)%indicator_columns_inv Hi Hp Hpp Hps Hs.
  destruct i as [|i]; [lia|]. replace (S i - 1)%nat with i in * by lia.
  destruct (lookup_lt_is_Some_2 nLoss (S i)) as [loss Hloss].
  { apply lookup_lt_Some in Hs. lia. }
  rewrite (Hrec i prevStop price prevPrice loss) in Hs by done.
  injection Hs as <-. split.
  - apply next_stop_ratchet_up.
  - apply next_stop_ratchet_down.
Qed.

(** X2: the new stop does not pass the close.  With a loss threshold that
    is not negative, the new stop is at or below the close when the close
    is above the previous stop, and at or above the close when the close is
    at or below the previous stop.  Hence the close is above the new stop
    only if it was above the previous one, and below the new stop only if
    it was at or below the previous one. *)
Theorem stop_follows_price_side (df : list candle)
    (haClose nLoss trailingStop : list num) (i : nat)
    (price prevStop stop loss : num) :
  indicator_columns ta_atr df = Ok (haClose, nLoss, trailingStop) →
  (1 <= i)%nat →
  haClose !! i = Some price →
  trailingStop !! (i - 1)%nat = Some prevStop →
  trailingStop !! i = Some stop →
  nLoss !! i = Some loss →
  (loss >=? of_Z 0)%num = true →
  is_nan prevStop = false →
  ((price >? prevStop)%num = true → (stop <=? price)%num = true)
  ∧ ((price <=? prevStop)%num = true → (price <=? stop)%num = true)
  ∧ ((price >? stop)%num = true → (price >? prevStop)%num = true)
  ∧ ((price <? stop)%num = true → (price <=? prevStop)%num = true).
Proof.
  intros (_ & -> & HnL & HTS & _ & Hrec)%indicator_columns_inv
    Hi Hp Hps Hs Hloss Hpos Hnum.
  destruct i as [|i]; [lia|]. replace (S i - 1)%nat with i in * by lia.
  destruct (lookup_lt_is_Some_2 (map ha_close_row df) i) as [pp Hpp].
  { apply lookup_lt_Some in Hp. lia. }
  rewrite (Hrec i prevStop price pp loss) in Hs by done.
  injection Hs as <-.
  destruct (next_stop_not_past_price prevStop price pp loss Hpos Hnum)
    as [Hup Hdown].
  destruct (next_stop_side prevStop price pp loss Hpos Hnum) as [Hgt Hlt].
  by split_and!.
Qed.

(** X3: the stop is a number as long as the inputs are: when every
    Heikin-Ashi close up to index [i] and every loss threshold from index 1
    to [i] is a number, so is the stop at [i]. *)
Theorem trailing_stop_is_number (df : list candle)
    (haClose nLoss trailingStop : list num) (i : nat) (stop : num) :
  indicator_columns ta_atr df = Ok (haClose, nLoss, trailingStop) →
  (∀ j price, (j <= i)%nat → haClose !! j = Some price → is_nan price = false) →
  (∀ j loss, (1 <= j)%nat → (j <= i)%nat → nLoss !! j = Some loss →
             is_nan loss = false) →
  trailingStop !! i = Some stop →
  is_nan stop = false.
Proof.
  intros (_ & -> & HnL & HTS & H0 & Hrec)%indicator_columns_inv.
  revert stop. induction i as [|i IH]; intros stop Hprice Hloss Hs.
  - rewrite H0 in Hs. by injection Hs as <-.
  - assert (Hlt : (S i < length df)%nat).
    { apply lookup_lt_Some in Hs. lia. }
    destruct (lookup_lt_is_Some_2 trailingStop i) as [ps Hps]; [lia|].
    destruct (lookup_lt_is_Some_2 (map ha_close_row df) (S i)) as [price Hp];
      [rewrite length_map; lia|].
    destruct (lookup_lt_is_Some_2 (map ha_close_row df) i) as [pp Hpp];
      [rewrite length_map; lia|].
    destruct (lookup_lt_is_Some_2 nLoss (S i)) as [loss Hl]; [lia|].
    rewrite (Hrec i ps price pp loss) in Hs by done. injection Hs as <-.
    apply next_stop_number.
    + apply IH; [| |done].
      * intros j q Hj. apply Hprice. lia.
      * intros j q H1 Hj. apply Hloss; lia.
    + by apply (Hprice (S i)).
    + by apply (Hloss (S i)); [lia|lia|].
Qed.
End MoreStrategyFacts.

(** ** The strategy on its frame *)

Lemma ha_close_row_range (c : candle) :
  (low c <=? open c)%num = true → (open c <=? high c)%num = true →
  (low c <=? close c)%num = true → (close c <=? high c)%num = true →
  (low c <=? ha_close_row c)%num = true ∧ (ha_close_row c <=? high c)%num = true.
Proof.
  unfold ha_close_row. destruct c as [t [|o] [|h] [|l] [|c] v]; simpl;
    try discriminate.
  intros H1 H2 H3 H4. apply Qle_bool_iff in H1, H2, H3, H4.
  rewrite !Qle_bool_iff, !Qred_correct.
  change (inject_Z 4) with 4%Q. unfold Qdiv. change (/ 4)%Q with (1 # 4)%Q.
  split; lra.
Qed.

Lemma heikin_ashi_inv (df : list candle) (HA_Close HA_Open : list num) :
  heikin_ashi df = Ok (HA_Close, HA_Open) →
  HA_Close = map ha_close_row df ∧ length HA_Open = length df.
Proof.
  intros Hrun.
  assert (Hlen : (1 <= length df)%nat).
  { destruct df; [discriminate | simpl; lia]. }
  destruct (heikin_ashi_columns df Hlen) as (HA_Open' & Hrun' & Hl & _).
  rewrite Hrun in Hrun'. by injection Hrun' as -> ->.
Qed.

(** X4: the Heikin-Ashi close of a candle whose open and close lie between
    its low and its high lies between them too. *)
Theorem ha_close_within_range (df : list candle) (HA_Close HA_Open : list num)
    (i : nat) (c : candle) (h : num) :
  heikin_ashi df = Ok (HA_Close, HA_Open) →
  df !! i = Some c → HA_Close !! i = Some h →
  (low c <=? open c)%num = true → (open c <=? high c)%num = true →
  (low c <=? close c)%num = true → (close c <=? high c)%num = true →
  (low c <=? h)%num = true ∧ (h <=? high c)%num = true.
Proof.
  intros [-> _]%heikin_ashi_inv Hc Hh. rewrite list_lookup_fmap, Hc in Hh.
  injection Hh as <-. apply ha_close_row_range.
Qed.

Section SignalFacts.
Variable ta_atr : atr_fn.

(** X5: [calculate_strategy] needs two rows and the average true range.
    On an empty frame it raises [IndexError]; on any other frame it raises
    what the call of the average true range raises; when that call returns
    it raises [IndexError] on a frame of one row and returns a result on
    every frame of two rows or more. *)
Theorem calculate_strategy_needs_two_rows (df : list candle) :
  (df = [] → calculate_strategy ta_atr df = Raise IndexError)
  ∧ (∀ e, (1 <= length df)%nat → call_atr ta_atr df = Raise e →
          calculate_strategy ta_atr df = Raise e)
  ∧ (∀ atr, (length df < 2)%nat → call_atr ta_atr df = Ok atr →
            calculate_strategy ta_atr df = Raise IndexError)
  ∧ (∀ atr, (2 <= length df)%nat → call_atr ta_atr df = Ok atr →
            is_ok (calculate_strategy ta_atr df) = true).
Proof.
  split_and!.
  - by intros ->.
  - apply calculate_strategy_Raise.
  - destruct df as [|c [|c' df]]; [reflexivity | | simpl; lia].
    intros atr _ Hatr. unfold calculate_strategy, indicator_columns.
    change (heikin_ashi [c]) with
      (Ok ([ha_close_row c], [((open c + close c) / of_Z 2)%num])).
    rewrite bind_Ok. cbv beta iota zeta. rewrite Hatr, bind_Ok. cbv zeta.
    change (trailing_stop_loop (length [c]) [ha_close_row c]) with
      (fun _ : list num => Ok (A:=list num) [of_Z 0]).
    reflexivity.
  - intros atr Hlen Hatr.
    destruct (calculate_strategy_spec ta_atr df atr Hlen Hatr)
      as (nLoss & TS & h1 & t1 & h0 & t0 & c1 & _ & _ & _ & _ & _ & _ & ->).
    reflexivity.
Qed.

(** X6: a signal is a crossing of the previous stop that the loss
    threshold carries through.  With a loss threshold at the last candle
    that is not negative: LONG exactly when the last Heikin-Ashi close is
    above the stop of the candle before, the close before was at or below
    it, and the close less the loss is below the close; SHORT exactly when
    the last close is at or below that stop, the close before was at or
    above it, and the close plus the loss is above the close. *)
Theorem signal_is_crossing_of_previous_stop (df : list candle)
    (haClose nLoss trailingStop : list num) (hn hp prevStop loss : num)
    (signal : option side) (entry sl tp : num) :
  indicator_columns ta_atr df = Ok (haClose, nLoss, trailingStop) →
  (2 <= length df)%nat →
  haClose !! (length df - 1)%nat = Some hn →
  haClose !! (length df - 2)%nat = Some hp →
  trailingStop !! (length df - 2)%nat = Some prevStop →
  nLoss !! (length df - 1)%nat = Some loss →
  (loss >=? of_Z 0)%num = true →
  is_nan prevStop = false →
  calculate_strategy ta_atr df = Ok (signal, entry, sl, tp) →
  (signal = Some LONG
   ↔ (hn >? prevStop)%num = true ∧ (hp <=? prevStop)%num = true
     ∧ (hn >? hn - loss)%num = true)
  ∧ (signal = Some SHORT
     ↔ (hn <=? prevStop)%num = true ∧ (hp >=? prevStop)%num = true
       ∧ (hn <? hn + loss)%num = true).
Proof.
  intros Hcols Hlen Hhn Hhp Hps Hloss Hpos Hnum Hres.
  destruct (calculate_strategy_Ok_atr ta_atr df _ Hres) as [atr Hatr].
  destruct (calculate_strategy_spec ta_atr df atr Hlen Hatr)
    as (nLoss' & TS' & h1 & t1 & h0 & t0 & c1
        & Hcols' & Hc1 & Hh1 & Ht1 & Hh0 & Ht0 & Hrun).
  rewrite Hcols in Hcols'. injection Hcols' as -> <- <-.
  rewrite Hhn in Hh1. injection Hh1 as <-.
  rewrite Hhp in Hh0. injection Hh0 as <-.
  rewrite Hps in Ht0. injection Ht0 as <-.
  apply indicator_columns_inv in Hcols as (_ & _ & _ & _ & _ & Hrec).
  assert (Ht : t1 = next_stop prevStop hn hp loss).
  { specialize (Hrec (length df - 2)%nat prevStop hn hp loss).
    replace (S (length df - 2)) with (length df - 1)%nat in Hrec by lia.
    rewrite Hrec in Ht1 by done. by injection Ht1. }
  destruct (next_stop_side prevStop hn hp loss Hpos Hnum) as [Hgt Hlt].
  rewrite <- Ht in Hgt, Hlt.
  pose proof (next_stop_cross_up prevStop hn hp loss) as Hup.
  pose proof (next_stop_cross_down prevStop hn hp loss) as Hdown.
  rewrite <- Ht in Hup, Hdown.
  rewrite Hres in Hrun. clear Hres Hrec Ht1 Ht.
  destruct (hn >? t1)%num eqn:EA.
  - (* above the new stop *)
    specialize (Hgt eq_refl).
    assert (EC : (hn <? t1)%num = false) by (unfold gtb in EA; by apply ltb_asym).
    assert (En : (hn <=? prevStop)%num = false)
      by (unfold gtb in Hgt; by apply ltb_leb_false).
    rewrite EC in Hrun. cbn [andb] in Hrun.
    destruct (hp <=? prevStop)%num eqn:EB; cbv zeta in Hrun;
      injection Hrun as -> _ _ _.
    + rewrite Hup in EA by done. split; split; try done.
      intros (? & _); congruence.
    + split; split; try done; [intros (_ & ? & _) | intros (? & _)]; congruence.
  - cbn [andb] in Hrun. destruct (hn <? t1)%num eqn:EC.
    + (* below the new stop *)
      specialize (Hlt eq_refl).
      assert (En : (hn >? prevStop)%num = false).
      { unfold gtb. destruct (prevStop <? hn)%num eqn:E; [|done].
        apply ltb_leb_false in E. congruence. }
      destruct (hp >=? prevStop)%num eqn:ED; cbn [andb] in Hrun;
        cbv zeta in Hrun; injection Hrun as -> _ _ _.
      * rewrite Hdown in EC by done. split; split; try done.
        intros (? & _); congruence.
      * split; split; try done; [intros (? & _) | intros (_ & ? & _)]; congruence.
    + (* on the new stop, or not comparable *)
      cbn [andb] in Hrun. cbv zeta in Hrun. injection Hrun as -> _ _ _.
      split; split; try done.
      * intros (E1 & E2 & E3). rewrite Hup in EA by done. congruence.
      * intros (E1 & E2 & E3). rewrite Hdown in EC by done. congruence.
Qed.

(** X7: on well-formed candles the stop is never on the winning side of the
    entry.  When the last candle has its low at or below its close, a LONG
    signal has its stop at or below the entry and its target at or above
    it; when the close is at or below the high, a SHORT signal has its stop
    at or above the entry and its target at or below it. *)
Theorem stop_never_beyond_entry (df : list candle) (signal : side)
    (entry sl tp : num) (last_candle : candle) :
  calculate_strategy ta_atr df = Ok (Some signal, entry, sl, tp) →
  last df = Some last_candle →
  match signal with
  | LONG => (low last_candle <=? close last_candle)%num = true
  | SHORT => (close last_candle <=? high last_candle)%num = true
  end →
  match signal with
  | LONG => (sl <=? entry)%num = true ∧ (tp >=? entry)%num = true
  | SHORT => (sl >=? entry)%num = true ∧ (tp <=? entry)%num = true
  end.
Proof.
  intros [(c & Hlast & ->) Ht]%calculate_strategy_targets Hlast' Hwf.
  rewrite Hlast in Hlast'. injection Hlast' as ->.
  destruct signal; destruct Ht as [-> ->].
  - assert (Hsl : (series_min (tail_slice SL_LOOKBACK (col low df))
                   <=? close last_candle)%num = true).
    { apply leb_trans with (low last_candle); [|done].
      apply series_min_least.
      - apply last_in_tail_slice; [unfold SL_LOOKBACK; lia|].
        unfold col. by rewrite fmap_last, Hlast.
      - by destruct (low last_candle). }
    split; [done | by apply long_target_not_below_entry].
  - assert (Hsl : (series_max (tail_slice SL_LOOKBACK (col high df))
                   >=? close last_candle)%num = true).
    { unfold geb. apply leb_trans with (high last_candle); [done|].
      apply series_max_greatest.
      - apply last_in_tail_slice; [unfold SL_LOOKBACK; lia|].
        unfold col. by rewrite fmap_last, Hlast.
      - destruct (high last_candle); [|done]. by rewrite leb_nan_r in Hwf. }
    split; [done | by apply short_target_not_above_entry].
Qed.

(** X8: the result depends on the four prices only: two frames with the
    same opens, highs, lows and closes give the same result, whatever
    their timestamps and volumes. *)
Theorem only_prices_matter (df1 df2 : list candle) :
  map ohlc df1 = map ohlc df2 →
  calculate_strategy ta_atr df1 = calculate_strategy ta_atr df2.
Proof.
  intros H.
  assert (Hlen : length df1 = length df2).
  { apply (f_equal length) in H. by rewrite !length_map in H. }
  assert (Ho : col open df1 = col open df2).
  { apply (f_equal (map (fun q => q.1.1.1))) in H. by rewrite !map_map in H. }
  assert (Hh : col high df1 = col high df2).
  { apply (f_equal (map (fun q => q.1.1.2))) in H. by rewrite !map_map in H. }
  assert (Hl : col low df1 = col low df2).
  { apply (f_equal (map (fun q => q.1.2))) in H. by rewrite !map_map in H. }
  assert (Hc : col close df1 = col close df2).
  { apply (f_equal (map (fun q => q.2))) in H. by rewrite !map_map in H. }
  assert (Hha : map ha_close_row df1 = map ha_close_row df2).
  { apply (f_equal (map (fun q : num * num * num * num =>
             ((q.1.1.1 + q.1.1.2 + q.1.2 + q.2) / of_Z 4)%num))) in H.
    by rewrite !map_map in H. }
  unfold calculate_strategy, indicator_columns, heikin_ashi, call_atr,
    loss_column.
  by rewrite Hlen, Ho, Hh, Hl, Hc, Hha.
Qed.
End SignalFacts.

(** ** The ranking, in full *)

Lemma same_number_not_ltb (a b k : num) :
  same_number a k = true → same_number b k = true → (a <? b)%num = false.
Proof.
  destruct a as [|x], b as [|y], k as [|z]; try discriminate. simpl.
  intros H1%Qeq_bool_iff H2%Qeq_bool_iff.
  apply negb_false_iff, Qle_bool_iff. lra.
Qed.

Lemma rank_tickers_full (tickers : list (string * ticker)) :
  rank_tickers tickers = Ok (take TOP_N (full_ranking tickers)).
Proof. apply rank_tickers_run. Qed.

Lemma full_ranking_perm (tickers : list (string * ticker)) :
  full_ranking tickers ≡ₚ valid_tickers tickers.
Proof.
  unfold full_ranking. rewrite sort_desc_perm, map_map. simpl. by rewrite map_id.
Qed.

Lemma valid_tickers_elem (tickers : list (string * ticker)) (x : string) :
  x ∈ valid_tickers tickers ↔ usdt_pair x = true ∧ x ∈ map fst tickers.
Proof.
  unfold valid_tickers. split.
  - intros [[k t] [-> [Hp Hin]%list_elem_of_filter]]%list_elem_of_fmap.
    split; [done|]. apply list_elem_of_fmap. by exists (k, t).
  - intros [Hp [[k t] [-> Hin]]%list_elem_of_fmap].
    apply list_elem_of_fmap. exists (k, t). split; [done|].
    by apply list_elem_of_filter.
Qed.

Lemma usdt_pair_inv (x : string) :
  usdt_pair x = true →
  contains "/USDT" x = true ∧ contains "UP/" x = false
  ∧ contains "DOWN/" x = false.
Proof.
  unfold usdt_pair. intros [[H1 H2]%andb_true_iff H3]%andb_true_iff.
  by apply negb_true_iff in H2, H3.
Qed.

Lemma sorted_entries (tickers : list (string * ticker)) (p : num * string) :
  p ∈ sort_desc (map (fun x => (rank_key tickers x, x)) (valid_tickers tickers)) →
  fst p = rank_key tickers (snd p) ∧ snd p ∈ valid_tickers tickers.
Proof.
  rewrite sort_desc_perm. by intros [x [-> Hx]]%list_elem_of_fmap.
Qed.

Lemma rank_key_not_nan (tickers : list (string * ticker)) (x : string) :
  changes_are_numbers tickers = true → x ∈ valid_tickers tickers →
  is_nan (rank_key tickers x) = false.
Proof.
  intros Hnum [_ Hx]%valid_tickers_elem.
  destruct (dict_get_is_Ok tickers x Hx) as [t Ht].
  unfold rank_key. rewrite Ht. apply key_of_not_nan. intros p Hp.
  apply dict_get_Ok in Ht. unfold changes_are_numbers in Hnum.
  rewrite forallb_forall in Hnum.
  specialize (Hnum (x, t) (proj1 (list_elem_of_In _ _) Ht)). simpl in Hnum.
  rewrite Hp in Hnum. by apply negb_true_iff.
Qed.

Lemma sorted_ranking (tickers : list (string * ticker)) :
  changes_are_numbers tickers = true →
  StronglySorted not_below
    (sort_desc (map (fun x => (rank_key tickers x, x)) (valid_tickers tickers))).
Proof.
  intros Hnum. apply sort_desc_sorted, Forall_forall. intros p Hp.
  apply list_elem_of_fmap in Hp as [x [-> Hx]]. simpl.
  by apply rank_key_not_nan.
Qed.

Lemma not_below_geb {A} (p q : num * A) :
  is_nan (fst p) = false → is_nan (fst q) = false → not_below p q →
  (fst p >=? fst q)%num = true.
Proof. intros Hp Hq H. unfold geb. by apply ltb_false_leb. Qed.

(** X9: the ranking never fails; it returns at most [TOP_N] symbols, each a
    key of the ticker dict that contains [/USDT] and neither [UP/] nor
    [DOWN/], and none twice when the dict has each key once. *)
Theorem ranking_is_sound (tickers : list (string * ticker)) :
  ∃ top,
    rank_tickers tickers = Ok top
    ∧ (length top <= TOP_N)%nat
    ∧ (∀ x, x ∈ top →
         x ∈ map fst tickers
         ∧ contains "/USDT" x = true
         ∧ contains "UP/" x = false
         ∧ contains "DOWN/" x = false)
    ∧ (NoDup (map fst tickers) → NoDup top).
Proof.
  exists (take TOP_N (full_ranking tickers)).
  split_and!; [apply rank_tickers_full | rewrite length_take; lia | |].
  - intros x [i [Hx _]]%elem_of_take.
    assert (Hin : x ∈ valid_tickers tickers).
    { rewrite <- full_ranking_perm. apply list_elem_of_lookup. eauto. }
    apply valid_tickers_elem in Hin as [Hp Hin].
    split; [done | by apply usdt_pair_inv].
  - intros Hnd. apply (sublist_NoDup _ (full_ranking tickers));
      [|apply sublist_take].
    rewrite full_ranking_perm. unfold valid_tickers.
    apply (sublist_NoDup _ (map fst tickers)); [done|].
    apply fmap_sublist, sublist_filter.
Qed.

(** X10: the symbols come out in descending order of their keys: a symbol is
    never followed by one with a larger key.  (Changes are numbers or
    missing.) *)
Theorem ranking_is_descending (tickers : list (string * ticker))
    (top : list string) (i j : nat) (x y : string) :
  changes_are_numbers tickers = true →
  rank_tickers tickers = Ok top →
  (i < j)%nat → top !! i = Some x → top !! j = Some y →
  (rank_key tickers x >=? rank_key tickers y)%num = true.
Proof.
  intros Hnum Hrun Hij Hx Hy. rewrite rank_tickers_full in Hrun.
  injection Hrun as <-.
  apply lookup_take_Some in Hx as [Hx%sorted_keys _].
  apply lookup_take_Some in Hy as [Hy%sorted_keys _].
  pose proof (StronglySorted_lookup _ _ i j _ _ (sorted_ranking _ Hnum) Hij Hx Hy)
    as Hnb.
  apply (not_below_geb _ _) in Hnb; [done|..]; simpl;
    apply rank_key_not_nan; try done.
  - apply (sorted_entries tickers (rank_key tickers x, x)).
    apply list_elem_of_lookup. eauto.
  - apply (sorted_entries tickers (rank_key tickers y, y)).
    apply list_elem_of_lookup. eauto.
Qed.

(** X11: the returned symbols are the best ones: an eligible symbol that is
    left out has a key no larger than that of any returned symbol. *)
Theorem ranking_keeps_the_best (tickers : list (string * ticker))
    (top : list string) (x y : string) :
  changes_are_numbers tickers = true →
  rank_tickers tickers = Ok top →
  x ∈ top → y ∈ valid_tickers tickers → y ∉ top →
  (rank_key tickers x >=? rank_key tickers y)%num = true.
Proof.
  intros Hnum Hrun Hx Hy Hny. rewrite rank_tickers_full in Hrun.
  injection Hrun as <-.
  apply elem_of_take in Hx as (i & Hx & Hi).
  assert (Hy' : y ∈ full_ranking tickers) by by rewrite full_ranking_perm.
  apply list_elem_of_lookup in Hy' as [j Hj].
  assert (Hij : (i < j)%nat).
  { destruct (decide (j < TOP_N)%nat) as [Hlt|]; [|lia].
    exfalso. apply Hny, elem_of_take. eauto. }
  apply sorted_keys in Hx, Hj.
  pose proof (StronglySorted_lookup _ _ i j _ _ (sorted_ranking _ Hnum) Hij Hx Hj)
    as Hnb.
  apply (not_below_geb _ _) in Hnb; [done|..]; simpl;
    apply rank_key_not_nan; try done.
  apply (sorted_entries tickers (rank_key tickers x, x)).
  apply list_elem_of_lookup. eauto.
Qed.

(** X12: with at most [TOP_N] eligible symbols the ranking returns all of
    them, each as often as it is eligible. *)
Theorem few_candidates_all_returned (tickers : list (string * ticker)) :
  (length (valid_tickers tickers) <= TOP_N)%nat →
  ∃ top,
    rank_tickers tickers = Ok top
    ∧ top ≡ₚ valid_tickers tickers
    ∧ length top = length (valid_tickers tickers).
Proof.
  intros Hfew. destruct (rank_tickers_few tickers Hfew) as (top & Hrun & Hperm).
  exists top. split_and!; [done | done | by rewrite Hperm].
Qed.

Lemma insert_desc_filter {A} (key : A → num) (k : num) (x : A)
    (l : list (num * A)) :
  Forall (fun p => fst p = key (snd p)) l →
  filter (fun y => same_number (key y) k = true)
         (map snd (insert_desc (key x, x) l))
  = filter (fun y => same_number (key y) k = true) (x :: map snd l).
Proof.
  induction l as [|[ky y] l IH]; intros Hl; [done|].
  apply Forall_cons in Hl as [Hy Hl]. simpl in Hy. subst ky.
  simpl. destruct (key x <? key y)%num eqn:E; [|done].
  simpl. rewrite !filter_cons. rewrite IH by done. rewrite filter_cons.
  destruct (decide (same_number (key y) k = true)) as [Ey|Ey];
    destruct (decide (same_number (key x) k = true)) as [Ex|Ex]; try done.
  rewrite (same_number_not_ltb _ _ _ Ex Ey) in E. done.
Qed.

Lemma sort_desc_filter {A} (key : A → num) (k : num) (l : list A) :
  filter (fun y => same_number (key y) k = true)
         (map snd (sort_desc (map (fun x => (key x, x)) l)))
  = filter (fun y => same_number (key y) k = true) l.
Proof.
  induction l as [|x l IH]; [done|].
  change (sort_desc (map (fun x => (key x, x)) (x :: l)))
    with (insert_desc (key x, x) (sort_desc (map (fun x => (key x, x)) l))).
  rewrite insert_desc_filter.
  - rewrite !filter_cons. by rewrite IH.
  - apply Forall_forall. intros p Hp. rewrite sort_desc_perm in Hp.
    by apply list_elem_of_fmap in Hp as [z [-> _]].
Qed.

(** X13: the sort is stable: when every reported change is a number or
    missing, the symbols that share a key come out in the order the ticker
    dict lists them.  [top ++ rest] is the whole ranking, of which [top] is
    returned. *)
Theorem ranking_is_stable (tickers : list (string * ticker)) (k : num) :
  changes_are_numbers tickers = true →
  ∃ top rest,
    rank_tickers tickers = Ok top
    ∧ top ++ rest ≡ₚ valid_tickers tickers
    ∧ filter (fun x => same_number (rank_key tickers x) k = true) (top ++ rest)
      = filter (fun x => same_number (rank_key tickers x) k = true)
               (valid_tickers tickers).
Proof.
  intros _.
  exists (take TOP_N (full_ranking tickers)), (drop TOP_N (full_ranking tickers)).
  rewrite take_drop. split_and!.
  - apply rank_tickers_full.
  - apply full_ranking_perm.
  - apply sort_desc_filter.
Qed.

(** ** The scan, event by event *)

Lemma how_many_app {A} (p : A → bool) (l1 l2 : list A) :
  how_many p (l1 ++ l2) = (how_many p l1 + how_many p l2)%nat.
Proof. unfold how_many. by rewrite List.filter_app, length_app. Qed.

Lemma how_many_cons_false {A} (p : A → bool) (x : A) (l : list A) :
  p x = false → how_many p (x :: l) = how_many p l.
Proof. intros H. unfold how_many. simpl. by rewrite H. Qed.

Lemma how_many_flat_map {A B} (p : B → bool) (f : A → list B) (l : list A) :
  how_many p (flat_map f l)
  = foldr (fun x n => (how_many p (f x) + n)%nat) 0%nat l.
Proof.
  induction l as [|x l IH]; [done|].
  cbn [flat_map foldr]. by rewrite how_many_app, IH.
Qed.

Section MoreScannerFacts.
Variable ta_atr : atr_fn.
Variable fetch_tickers : result (list (string * ticker)).
Variable fetch_ohlcv : string -> result (list candle).
Variable bot_send_message : message -> result unit.

Lemma strategy_runs_on_long_series (df : list candle) :
  (LIMIT <= length df)%nat →
  is_ok (calculate_strategy ta_atr df) = is_ok (call_atr ta_atr df).
Proof.
  intros Hle. unfold LIMIT in Hle.
  destruct (call_atr ta_atr df) as [atr|e] eqn:Hatr.
  - destruct (calculate_strategy_spec ta_atr df atr)
      as (nLoss & TS & h1 & t1 & h0 & t0 & c1 & _ & _ & _ & _ & _ & _ & ->);
      [lia | done | done].
  - rewrite (calculate_strategy_Raise ta_atr df e); [done | lia | done].
Qed.

Lemma run_scanner_run (log : list event) :
  run_scanner ta_atr fetch_tickers fetch_ohlcv bot_send_message log
  = match fetch_tickers with
    | Ok tickers =>
        let top := take TOP_N (full_ranking tickers) in
        (Ok tt,
         log ++ PrintStart :: PrintScanning top
           :: flat_map (events_of ta_atr fetch_ohlcv bot_send_message) top ++ [PrintComplete])
    | Raise e =>
        (Ok tt,
         log ++ [PrintStart; PrintGainersError e; PrintScanning [];
                 PrintComplete])
    end.
Proof.
  unfold run_scanner. unfold mbind at 1, io_bind at 1. unfold emit at 1.
  unfold mbind at 1, io_bind at 1.
  unfold get_top_gainers, try_except.
  unfold mbind at 1, io_bind at 1. unfold lift_result at 1.
  destruct fetch_tickers as [tickers|e].
  - unfold lift_result. rewrite rank_tickers_full.
    unfold mbind at 1, io_bind at 1. unfold emit at 1.
    unfold mbind at 1, io_bind at 1. rewrite scan_symbols_run.
    unfold emit. cbv zeta. f_equal.
    rewrite <- ?app_assoc. simpl. by rewrite <- ?app_assoc.
  - unfold mbind at 1, io_bind at 1. unfold emit at 1.
    unfold mret, io_ret.
    unfold mbind at 1, io_bind at 1. unfold emit at 1.
    unfold mbind at 1, io_bind at 1. rewrite scan_symbols_run.
    unfold emit. simpl. f_equal. rewrite app_nil_r.
    by rewrite <- ?app_assoc.
Qed.

Lemma events_of_fetches_once (symbol : string) :
  how_many is_fetch (events_of ta_atr fetch_ohlcv bot_send_message symbol) = 1%nat.
Proof.
  unfold events_of. destruct (outcome_of _ _ symbol) as [|e| |msg]; try done.
  by destruct (bot_send_message msg).
Qed.

Lemma events_of_sends_at_most_once (symbol : string) :
  (how_many is_send (events_of ta_atr fetch_ohlcv bot_send_message symbol) <= 1)%nat.
Proof.
  unfold events_of. destruct (outcome_of _ _ symbol) as [|e| |msg];
    try (cbv; lia).
  destruct (bot_send_message msg); cbv; lia.
Qed.

Lemma events_of_fetched (symbol : string) :
  fetched (events_of ta_atr fetch_ohlcv bot_send_message symbol) = [symbol].
Proof.
  unfold events_of. destruct (outcome_of _ _ symbol) as [|e| |msg]; try done.
  by destruct (bot_send_message msg).
Qed.

Lemma events_of_sleeps (symbol : string) :
  how_many is_sleep (events_of ta_atr fetch_ohlcv bot_send_message symbol)
  = if gets_analysed ta_atr fetch_ohlcv symbol then 1%nat else 0%nat.
Proof.
  unfold events_of, outcome_of, gets_analysed.
  destruct (fetch_ohlcv symbol) as [df|e]; [|done].
  destruct (Nat.ltb_spec (length df) LIMIT) as [Hlt|Hle]; [done|].
  rewrite <- (strategy_runs_on_long_series df Hle). cbn [negb andb].
  destruct (calculate_strategy ta_atr df) as [[[[[s|] entry] sl] tp]|e];
    [|done|done].
  by destruct (bot_send_message _).
Qed.

Lemma scanned_event (top_coins : list string) (ev : event) :
  ev ∈ snd (scan_symbols ta_atr fetch_ohlcv bot_send_message top_coins [])
  ↔ ∃ symbol, symbol ∈ top_coins
              ∧ ev ∈ events_of ta_atr fetch_ohlcv bot_send_message symbol.
Proof.
  rewrite scan_symbols_run. cbn [snd app].
  rewrite list_elem_of_In, in_flat_map.
  split; intros (s & Hs & Hev); exists s; by rewrite ?list_elem_of_In in *.
Qed.

Lemma failure_event_iff (symbol s : string) (e : exn) :
  PrintAnalyzeError s e ∈ events_of ta_atr fetch_ohlcv bot_send_message symbol
  ↔ s = symbol
    ∧ (fetch_ohlcv symbol = Raise e
       ∨ ∃ df, fetch_ohlcv symbol = Ok df ∧ (LIMIT <= length df)%nat
               ∧ call_atr ta_atr df = Raise e).
Proof.
  unfold events_of, outcome_of.
  destruct (fetch_ohlcv symbol) as [df|e'].
  - destruct (Nat.ltb_spec (length df) LIMIT) as [Hlt|Hle].
    { split; [set_solver|]. intros (_ & [?|(df' & [= <-] & ? & _)]); [done|lia]. }
    pose proof (strategy_runs_on_long_series df Hle) as Hok.
    destruct (calculate_strategy ta_atr df) as [[[[[sg|] entry] sl] tp]|e0]
      eqn:Hcalc.
    + destruct (call_atr ta_atr df) as [atr|e1] eqn:Hatr; [|done].
      split.
      * destruct (bot_send_message _); set_solver.
      * intros (_ & [?|(df' & [= <-] & _ & ?)]); [done|congruence].
    + destruct (call_atr ta_atr df) as [atr|e1] eqn:Hatr; [|done].
      split; [set_solver|].
      intros (_ & [?|(df' & [= <-] & _ & ?)]); [done|congruence].
    + destruct (call_atr ta_atr df) as [atr|e1] eqn:Hatr; [done|].
      assert (e0 = e1) as ->.
      { rewrite (calculate_strategy_Raise ta_atr df e1) in Hcalc;
          [congruence | unfold LIMIT in Hle; lia | done]. }
      split.
      * intros Hin. assert (s = symbol ∧ e = e1) as [-> ->] by set_solver.
        split; [done|]. right. by exists df.
      * intros (-> & [?|(df' & Hdf & _ & He)]); [done|].
        injection Hdf as <-. rewrite Hatr in He. injection He as ->. set_solver.
  - split.
    + intros Hin. assert (s = symbol ∧ e = e') as [-> ->] by set_solver.
      split; [done | by left].
    + intros (-> & [[= ->]|(df' & ? & _)]); [set_solver | done].
Qed.

Lemma send_event_iff (symbol : string) (msg : message) :
  SendMessage msg ∈ events_of ta_atr fetch_ohlcv bot_send_message symbol
  ↔ ∃ df, fetch_ohlcv symbol = Ok df ∧ (LIMIT <= length df)%nat
          ∧ calculate_strategy ta_atr df
            = Ok (Some (m_signal msg), m_entry msg, m_stop_loss msg,
                  m_take_profit msg)
          ∧ m_symbol msg = symbol.
Proof.
  unfold events_of, outcome_of.
  destruct (fetch_ohlcv symbol) as [df|e'].
  - destruct (Nat.ltb_spec (length df) LIMIT) as [Hlt|Hle].
    { split; [set_solver|]. intros (df' & [= <-] & ? & _). lia. }
    destruct (calculate_strategy ta_atr df) as [[[[[sg|] entry] sl] tp]|e]
      eqn:Hcalc.
    + split.
      * intros Hin. exists df.
        assert (msg = Message symbol sg entry sl tp) as ->
          by (destruct (bot_send_message _); set_solver).
        by split_and!.
      * intros (df' & [= <-] & _ & Hc & <-). rewrite Hcalc in Hc.
        injection Hc as -> -> -> ->. destruct msg. set_solver.
    + split; [set_solver|]. intros (df' & [= <-] & _ & Hc & _).
      by rewrite Hcalc in Hc.
    + split; [set_solver|]. intros (df' & [= <-] & _ & Hc & _).
      by rewrite Hcalc in Hc.
  - split; [set_solver|]. by intros (df' & ? & _).
Qed.

(** X14: when the tickers cannot be fetched the scan looks at no symbol: it
    logs the failure, an empty candidate list, and completes. *)
Theorem failed_ranking_scans_nothing (e : exn) (log : list event) :
  fetch_tickers = Raise e →
  run_scanner ta_atr fetch_tickers fetch_ohlcv bot_send_message log
  = (Ok tt,
     log ++ [PrintStart; PrintGainersError e; PrintScanning []; PrintComplete]).
Proof. intros H. by rewrite run_scanner_run, H. Qed.

(** X15: a scan is the ranking followed by the loop: with the tickers at
    hand, it announces the ranked candidates, processes exactly them in
    that order, and completes. *)
Theorem run_scanner_trace (tickers : list (string * ticker)) (log : list event) :
  fetch_tickers = Ok tickers →
  ∃ top,
    rank_tickers tickers = Ok top
    ∧ run_scanner ta_atr fetch_tickers fetch_ohlcv bot_send_message log
      = (Ok tt,
         log ++ PrintStart :: PrintScanning top
           :: flat_map (events_of ta_atr fetch_ohlcv bot_send_message) top
           ++ [PrintComplete]).
Proof.
  intros H. exists (take TOP_N (full_ranking tickers)).
  split; [apply rank_tickers_full|]. by rewrite run_scanner_run, H.
Qed.

(** X16: a scan asks the exchange for the candles of every candidate once,
    in the order of the ranking, and of nothing else: the symbols fetched
    are the list the ranking returned (none when the tickers could not be
    fetched).  They are at most [TOP_N], all of them passed the USDT
    filter, and none is fetched twice when the ticker dict has each key
    once. *)
Theorem scan_fetches_at_most_top_n :
  ∃ top,
    fetched (snd (run_scanner ta_atr fetch_tickers fetch_ohlcv bot_send_message []))
    = top
    ∧ match fetch_tickers with
      | Ok tickers =>
          rank_tickers tickers = Ok top
          ∧ (NoDup (map fst tickers) → NoDup top)
      | Raise _ => top = []
      end
    ∧ (length top <= TOP_N)%nat
    ∧ (∀ symbol, symbol ∈ top → usdt_pair symbol = true)
    ∧ how_many is_fetch
        (snd (run_scanner ta_atr fetch_tickers fetch_ohlcv bot_send_message []))
      = length top
    ∧ (∀ symbol,
         FetchOhlcv symbol
         ∈ snd (run_scanner ta_atr fetch_tickers fetch_ohlcv bot_send_message [])
         ↔ symbol ∈ top).
Proof.
  assert (Hfetched : ∀ l,
            fetched (flat_map (events_of ta_atr fetch_ohlcv bot_send_message) l) = l).
  { induction l as [|x l IH]; [done|]. cbn [flat_map]. unfold fetched in *.
    rewrite omap_app. fold (fetched (events_of ta_atr fetch_ohlcv bot_send_message x)).
    by rewrite events_of_fetched, IH. }
  assert (Hcount : ∀ l, how_many is_fetch l = length (fetched l)).
  { induction l as [|ev l IH]; [done|]. unfold how_many in *.
    destruct ev; simpl; by rewrite ?IH. }
  assert (Helem : ∀ l symbol, FetchOhlcv symbol ∈ l ↔ symbol ∈ fetched l).
  { intros l symbol. unfold fetched. rewrite list_elem_of_omap. split.
    - intros H. by exists (FetchOhlcv symbol).
    - intros (ev & Hin & Hev). destruct ev; try discriminate.
      by injection Hev as ->. }
  assert (Hlog : fetched (snd (run_scanner ta_atr fetch_tickers fetch_ohlcv
                                 bot_send_message []))
                 = match fetch_tickers with
                   | Ok tickers => take TOP_N (full_ranking tickers)
                   | Raise _ => []
                   end).
  { rewrite run_scanner_run. destruct fetch_tickers as [tickers|e]; [|done].
    cbv zeta. cbn [snd app]. set (top := take TOP_N (full_ranking tickers)).
    change (fetched (flat_map (events_of ta_atr fetch_ohlcv bot_send_message) top
                     ++ [PrintComplete]) = top).
    unfold fetched. rewrite omap_app. fold (fetched [PrintComplete]).
    fold (fetched (flat_map (events_of ta_atr fetch_ohlcv bot_send_message) top)).
    rewrite Hfetched. apply app_nil_r. }
  eexists. split; [reflexivity|]. rewrite Hcount, Hlog.
  split_and!.
  - destruct fetch_tickers as [tickers|e]; [|done].
    split; [apply rank_tickers_full|].
    intros Hnd. apply (sublist_NoDup _ (full_ranking tickers));
      [|apply sublist_take].
    rewrite full_ranking_perm. unfold valid_tickers.
    apply (sublist_NoDup _ (map fst tickers)); [done|].
    apply fmap_sublist, sublist_filter.
  - destruct fetch_tickers as [tickers|e]; [|simpl; lia].
    rewrite length_take. lia.
  - destruct fetch_tickers as [tickers|e]; [|by intros ? ?%elem_of_nil].
    intros symbol (i & Hi & _)%elem_of_take.
    assert (Hv : symbol ∈ valid_tickers tickers).
    { rewrite <- full_ranking_perm. apply list_elem_of_lookup. eauto. }
    by apply valid_tickers_elem in Hv as [? _].
  - done.
  - intros symbol. by rewrite Helem, Hlog.
Qed.

(** X17: the pause after a symbol is taken exactly for the candidates whose
    series arrived with at least [LIMIT] candles and for which the call of
    the average true range returned: behind the length guard the strategy
    returns whenever that call does.  A skipped symbol, a failed retrieval
    and a failed analysis go on to the next symbol without the pause. *)
Theorem scan_pauses_after_analysis (top_coins : list string) :
  how_many is_sleep
    (snd (scan_symbols ta_atr fetch_ohlcv bot_send_message top_coins []))
  = how_many (gets_analysed ta_atr fetch_ohlcv) top_coins
  ∧ ∀ symbol df,
      fetch_ohlcv symbol = Ok df → (LIMIT <= length df)%nat →
      is_ok (calculate_strategy ta_atr df) = is_ok (call_atr ta_atr df).
Proof.
  split; [|intros symbol df _; apply strategy_runs_on_long_series].
  rewrite scan_symbols_run. cbn [snd app].
  induction top_coins as [|s l IH]; [done|].
  cbn [flat_map]. rewrite how_many_app, events_of_sleeps, IH.
  unfold how_many. cbn [List.filter].
  by destruct (gets_analysed ta_atr fetch_ohlcv s).
Qed.

(** X18: the failures the loop logs for its candidates are the failed
    retrievals and the failed calls of the average true range, and no
    others: behind the length guard nothing else in the strategy raises.
    A failure is logged for a symbol if and only if the symbol is a
    candidate and either its retrieval raised the exception or its series
    arrived with at least [LIMIT] candles and the call of the average true
    range raised it. *)
Theorem only_fetch_or_atr_fails (top_coins : list string) (symbol : string)
    (e : exn) :
  PrintAnalyzeError symbol e
  ∈ snd (scan_symbols ta_atr fetch_ohlcv bot_send_message top_coins [])
  ↔ symbol ∈ top_coins
    ∧ (fetch_ohlcv symbol = Raise e
       ∨ ∃ df, fetch_ohlcv symbol = Ok df ∧ (LIMIT <= length df)%nat
               ∧ call_atr ta_atr df = Raise e).
Proof.
  rewrite scanned_event. split.
  - intros (s & Hs & [-> Hf]%failure_event_iff). by split.
  - intros [Hs Hf]. exists symbol. split; [done|]. by apply failure_event_iff.
Qed.

(** X19: an alert goes out exactly for the signals: a message is handed to
    the bot if and only if its symbol is a candidate whose series has at
    least [LIMIT] candles and for which the strategy returns the signal,
    entry, stop and target the message carries. *)
Theorem alert_iff_signal (top_coins : list string) (msg : message) :
  SendMessage msg
  ∈ snd (scan_symbols ta_atr fetch_ohlcv bot_send_message top_coins [])
  ↔ m_symbol msg ∈ top_coins
    ∧ ∃ df, fetch_ohlcv (m_symbol msg) = Ok df
            ∧ (LIMIT <= length df)%nat
            ∧ calculate_strategy ta_atr df
              = Ok (Some (m_signal msg), m_entry msg, m_stop_loss msg,
                    m_take_profit msg).
Proof.
  rewrite scanned_event. split.
  - intros (s & Hs & (df & Hf & Hle & Hc & <-)%send_event_iff). eauto.
  - intros (Hs & df & Hf & Hle & Hc). exists (m_symbol msg).
    split; [done|]. apply send_event_iff. eauto.
Qed.

(** X20: a scan hands the bot at most one message per candidate: a failed
    delivery is not tried again. *)
Theorem at_most_one_alert_per_candidate (top_coins : list string) :
  (how_many is_send
     (snd (scan_symbols ta_atr fetch_ohlcv bot_send_message top_coins []))
   <= length top_coins)%nat.
Proof.
  rewrite scan_symbols_run. cbn [snd app].
  induction top_coins as [|s l IH]; [done|].
  cbn [flat_map length]. rewrite how_many_app.
  pose proof (events_of_sends_at_most_once s). lia.
Qed.
End MoreScannerFacts.

(** ** The further properties on concrete inputs *)

Lemma ha_close_within_range_witness :
  heikin_ashi [quiet_candle] = Ok ([of_Z 100], [of_Z 100])
  ∧ (of_Z 99 <=? of_Z 100)%num = true ∧ (of_Z 100 <=? of_Z 101)%num = true.
Proof.
  split; [reflexivity|].
  by apply (ha_close_within_range [quiet_candle] [of_Z 100] [of_Z 100] 0
              quiet_candle (of_Z 100)).
Defined.

Lemma trailing_stop_ratchets_witness :
  ∃ haClose nLoss trailingStop,
    indicator_columns wilder_atr (rally_frame 10)
    = Ok (haClose, nLoss, trailingStop)
    ∧ haClose !! 9%nat = Some (of_Z 100)
    ∧ haClose !! 8%nat = Some (of_Z 100)
    ∧ trailingStop !! 8%nat = Some (of_Z 0)
    ∧ trailingStop !! 9%nat = Some (of_Z 96)
    ∧ (of_Z 96 >=? of_Z 0)%num = true.
Proof.
  eexists _, _, _. split; [by vm_compute|].
  split_and!; [reflexivity..|].
  eapply (trailing_stop_ratchets wilder_atr (rally_frame 10) _ _ _ 9
            (of_Z 100) (of_Z 100) (of_Z 0) (of_Z 96));
    [by vm_compute | lia | reflexivity..].
Defined.

Lemma stop_follows_price_side_witness :
  ∃ haClose nLoss trailingStop,
    indicator_columns wilder_atr (rally_frame 10)
    = Ok (haClose, nLoss, trailingStop)
    ∧ haClose !! 9%nat = Some (of_Z 100)
    ∧ trailingStop !! 8%nat = Some (of_Z 0)
    ∧ trailingStop !! 9%nat = Some (of_Z 96)
    ∧ nLoss !! 9%nat = Some (of_Z 4)
    ∧ (of_Z 4 >=? of_Z 0)%num = true
    ∧ (of_Z 100 >? of_Z 0)%num = true
    ∧ (of_Z 96 <=? of_Z 100)%num = true.
Proof.
  destruct (indicator_columns wilder_atr (rally_frame 10))
    as [[[h n] t]|e] eqn:Hcols; [|by vm_compute in Hcols].
  exists h, n, t. split; [reflexivity|].
  assert (H := Hcols). vm_compute in H. injection H as <- <- <-.
  split_and!; [reflexivity..|].
  destruct (stop_follows_price_side wilder_atr (rally_frame 10) _ _ _ 9
              (of_Z 100) (of_Z 0) (of_Z 96) (of_Z 4) Hcols) as (Hup & _);
    [lia | reflexivity.. |].
  by apply Hup.
Defined.

Lemma trailing_stop_is_number_witness :
  indicator_columns steady_atr [quiet_candle; quiet_candle]
  = Ok ([of_Z 100; of_Z 100], [of_Z 4; of_Z 4], [of_Z 0; of_Z 96])
  ∧ is_nan (of_Z 96) = false.
Proof.
  assert (H : indicator_columns steady_atr [quiet_candle; quiet_candle]
              = Ok ([of_Z 100; of_Z 100], [of_Z 4; of_Z 4], [of_Z 0; of_Z 96]))
    by reflexivity.
  split; [exact H|].
  apply (trailing_stop_is_number steady_atr _ _ _ _ 1 (of_Z 96) H).
  - intros [|[|j]] price Hj Hp; [by injection Hp as <-.. | lia].
  - intros [|[|j]] loss H1 Hj Hl; [lia | by injection Hl as <- | lia].
  - reflexivity.
Defined.

Lemma calculate_strategy_needs_two_rows_witness :
  calculate_strategy wilder_atr [] = Raise IndexError
  ∧ calculate_strategy wilder_atr [quiet_candle] = Raise IndexError
  ∧ calculate_strategy picky_atr blank_frame = Raise (OtherError "TypeError")
  ∧ is_ok (calculate_strategy wilder_atr [quiet_candle; quiet_candle]) = true.
Proof.
  split_and!.
  - destruct (calculate_strategy_needs_two_rows wilder_atr []) as (H & _).
    by apply H.
  - destruct (calculate_strategy_needs_two_rows wilder_atr [quiet_candle])
      as (_ & _ & H & _).
    by apply (H [NaN]); [simpl; lia|].
  - destruct (calculate_strategy_needs_two_rows picky_atr blank_frame)
      as (_ & H & _).
    by apply H; [vm_compute; lia|].
  - destruct (calculate_strategy_needs_two_rows wilder_atr
                [quiet_candle; quiet_candle]) as (_ & _ & _ & H).
    by apply (H [NaN; NaN]); [simpl; lia|].
Defined.

Lemma signal_is_crossing_of_previous_stop_witness :
  calculate_strategy wilder_atr (rally_frame 10)
  = Ok (Some LONG, of_Z 110, of_Z 88, of_Z 154)
  ∧ (Fin (57 # 5) >=? of_Z 0)%num = true
  ∧ (Fin (415 # 4) >? Fin (201 # 2))%num = true
  ∧ (Fin (189 # 2) <=? Fin (201 # 2))%num = true
  ∧ (Fin (415 # 4) >? Fin (415 # 4) - Fin (57 # 5))%num = true.
Proof.
  split; [reflexivity|]. split; [reflexivity|].
  destruct (indicator_columns wilder_atr (rally_frame 10))
    as [[[h n] t]|e] eqn:Hcols; [|by vm_compute in Hcols].
  assert (H := Hcols). vm_compute in H. injection H as <- <- <-.
  destruct (signal_is_crossing_of_previous_stop wilder_atr (rally_frame 10)
              _ _ _ (Fin (415 # 4)) (Fin (189 # 2)) (Fin (201 # 2))
              (Fin (57 # 5)) (Some LONG) (of_Z 110) (of_Z 88) (of_Z 154) Hcols)
    as [[HL _] _]; [simpl; lia | reflexivity.. |].
  by apply HL.
Defined.

Lemma stop_never_beyond_entry_witness :
  calculate_strategy wilder_atr (rally_frame 10)
  = Ok (Some LONG, of_Z 110, of_Z 88, of_Z 154)
  ∧ (of_Z 88 <=? of_Z 110)%num = true ∧ (of_Z 154 >=? of_Z 110)%num = true.
Proof.
  split; [reflexivity|].
  by apply (stop_never_beyond_entry wilder_atr (rally_frame 10) LONG
              (of_Z 110) (of_Z 88) (of_Z 154) (candle_of 95 120 90 110)).
Defined.

Lemma only_prices_matter_witness :
  calculate_strategy wilder_atr
    (replicate 11 quiet_candle ++ [Candle 0 (of_Z 95) (of_Z 120) (of_Z 90) (of_Z 110) (of_Z 1)])
  = calculate_strategy wilder_atr
      (replicate 11 quiet_candle ++ [Candle 7 (of_Z 95) (of_Z 120) (of_Z 90) (of_Z 110) (of_Z 3)]).
Proof. by apply only_prices_matter. Defined.

Lemma ranking_is_descending_witness :
  rank_tickers flat_and_falling = Ok ["B/USDT"; "A/USDT"]%string
  ∧ (rank_key flat_and_falling "B/USDT" >=? rank_key flat_and_falling "A/USDT")%num
    = true.
Proof.
  split; [reflexivity|].
  by apply (ranking_is_descending flat_and_falling ["B/USDT"; "A/USDT"]%string
              0 1 "B/USDT" "A/USDT"); [..|lia| |].
Defined.

Lemma ranking_keeps_the_best_witness :
  length (valid_tickers alphabet) = 26%nat
  ∧ ∃ top,
      rank_tickers alphabet = Ok top
      ∧ length top = TOP_N
      ∧ (rank_key alphabet "Z/USDT" >=? rank_key alphabet "A/USDT")%num = true.
Proof.
  split; [reflexivity|]. eexists. split; [by vm_compute|]. split; [reflexivity|].
  eapply (ranking_keeps_the_best alphabet _ "Z/USDT" "A/USDT");
    [reflexivity | by vm_compute | ..].
  - apply (bool_decide_unpack _). by vm_compute.
  - apply (bool_decide_unpack _). by vm_compute.
  - apply (bool_decide_unpack _). by vm_compute.
Defined.

Lemma few_candidates_all_returned_witness :
  (length (valid_tickers flat_and_falling) <= TOP_N)%nat
  ∧ ∃ top, rank_tickers flat_and_falling = Ok top ∧ length top = 2%nat.
Proof.
  assert (H : (length (valid_tickers flat_and_falling) <= TOP_N)%nat)
    by (vm_compute; lia).
  split; [exact H|].
  destruct (few_candidates_all_returned flat_and_falling H) as (top & Hr & _ & Hl).
  exists top. by split.
Defined.

Lemma failed_ranking_scans_nothing_witness :
  run_scanner wilder_atr broken_exchange one_symbol_exchange obliging_bot []
  = (Ok tt,
     [PrintStart; PrintGainersError (OtherError "NetworkError");
      PrintScanning []; PrintComplete]).
Proof.
  by apply (failed_ranking_scans_nothing wilder_atr broken_exchange
              one_symbol_exchange obliging_bot (OtherError "NetworkError") []).
Defined.

Lemma run_scanner_trace_witness :
  ∃ top,
    rank_tickers flat_and_falling = Ok top
    ∧ fst (run_scanner wilder_atr (Ok flat_and_falling) deaf_exchange
             obliging_bot []) = Ok tt.
Proof.
  destruct (run_scanner_trace wilder_atr (Ok flat_and_falling) deaf_exchange
              obliging_bot flat_and_falling [] eq_refl) as (top & Hr & Hrun).
  exists top. split; [exact Hr|]. by rewrite Hrun.
Defined.

Lemma ranking_is_stable_witness :
  changes_are_numbers flat_and_missing = true
  ∧ rank_tickers flat_and_missing = Ok ["B/USDT"; "A/USDT"; "C/USDT"]%string
  ∧ ∃ rest,
      filter (fun x => same_number (rank_key flat_and_missing x) (of_Z (-100)) = true)
             (["B/USDT"; "A/USDT"; "C/USDT"]%string ++ rest)
      = ["A/USDT"; "C/USDT"]%string.
Proof.
  split; [reflexivity|]. split; [reflexivity|].
  destruct (ranking_is_stable flat_and_missing (of_Z (-100)) eq_refl)
    as (top & rest & Hrun & _ & Hfilter).
  vm_compute in Hrun. injection Hrun as <-.
  exists rest. rewrite Hfilter. by vm_compute.
Defined.

Lemma scan_fetches_at_most_top_n_witness :
  fetched (snd (run_scanner wilder_atr (Ok flat_and_falling) deaf_exchange
                  obliging_bot []))
  = ["B/USDT"; "A/USDT"]%string.
Proof.
  destruct (scan_fetches_at_most_top_n wilder_atr (Ok flat_and_falling)
              deaf_exchange obliging_bot) as (top & Hlog & [Hrun _] & _).
  vm_compute in Hrun. injection Hrun as <-. exact Hlog.
Defined.

Lemma scan_pauses_after_analysis_witness :
  gets_analysed picky_atr two_symbol_exchange "N/USDT" = false
  ∧ gets_analysed picky_atr two_symbol_exchange "X/USDT" = true
  ∧ how_many is_sleep
      (snd (scan_symbols picky_atr two_symbol_exchange obliging_bot
              ["N/USDT"; "X/USDT"]%string []))
    = 1%nat.
Proof.
  split; [by vm_compute|]. split; [by vm_compute|].
  destruct (scan_pauses_after_analysis picky_atr two_symbol_exchange
              obliging_bot ["N/USDT"; "X/USDT"]%string) as [-> _].
  by vm_compute.
Defined.

Lemma only_fetch_or_atr_fails_witness :
  PrintAnalyzeError "N/USDT" (OtherError "TypeError")
  ∈ snd (scan_symbols picky_atr two_symbol_exchange obliging_bot
           ["N/USDT"; "X/USDT"]%string [])
  ∧ PrintAnalyzeError "X/USDT" (OtherError "Timeout")
    ∈ snd (scan_symbols wilder_atr deaf_exchange obliging_bot
             ["X/USDT"%string] []).
Proof.
  split.
  - apply (only_fetch_or_atr_fails picky_atr two_symbol_exchange obliging_bot).
    split; [apply list_elem_of_In; simpl; by left|].
    right. exists blank_frame. split_and!; [reflexivity | vm_compute; lia | reflexivity].
  - apply (only_fetch_or_atr_fails wilder_atr deaf_exchange obliging_bot).
    split; [apply list_elem_of_In; simpl; by left | by left].
Defined.
